(** * Catflake: a snowflake factory (src/index.js), embedded in Rocq

    The class [Catflake] packs a timestamp, a worker id, a process id and an
    increment into one arbitrary-precision integer and unpacks it again.

    Conventions of the embedding:
    - a [BigInteger] of the big-integer package is an integer [Z]; its
      [shiftLeft], [shiftRight] and [and] are [Z.shiftl], [Z.shiftr] and
      [Z.land] (two's complement on negative values, as in the package), its
      [mod] is the truncated remainder [Z.rem];
    - a JavaScript number is an integer or [NaN] (type [number]), exact as
      numbers are on the safe integers; the bit widths are natural numbers
      (type [N]);
    - [Date.now()] reads the next value of a clock oracle;
    - a [throw] is the [Throw] result;
    - the two listings of src/index.js differ in the normalisation of the ids
      only (lines 62-63 and lines 266-270): [revision] selects one. *)

From Stdlib Require Import ZArith NArith List String Ascii Bool Lia.
From Stdlib Require Import DecimalString DecimalZ DecimalPos.
Import ListNotations.

Local Open Scope Z_scope.

(** ** JavaScript values *)

Inductive number : Type :=
| Int (z : Z)
| NaN.

Inductive value : Type :=
| Undefined
| Bool (b : bool)
| Num (n : number)
| Str (s : string)
| Big (z : Z).

Inductive error : Type :=
| InvalidBitWidthConfiguration
    (* Error('incrementBits, processBits, and workerBits must add up to 22.') *)
| InvalidInteger
    (* thrown by the big-integer parser *)
| DivideByZero
    (* thrown by the big-integer division *)
| TypeError.
    (* a method called on a value that is no BigInteger *)

Inductive result (A : Type) : Type :=
| Ok (a : A)
| Throw (e : error).

Arguments Ok {A} a.
Arguments Throw {A} e.

Definition result_bind {A B} (r : result A) (k : A -> result B) : result B :=
  match r with
  | Ok a => k a
  | Throw e => Throw e
  end.

(** [a % b] on numbers, for an integer divisor: the sign follows the
    dividend, and a zero divisor gives [NaN]. *)
Definition js_rem (a : number) (b : Z) : number :=
  match a with
  | Int x => if b =? 0 then NaN else Int (Z.rem x b)
  | NaN => NaN
  end.

Definition isNaN (a : number) : bool :=
  match a with
  | Int _ => false
  | NaN => true
  end.

(** [2 ** bits] *)
Definition pow2 (bits : N) : Z := 2 ^ Z.of_N bits.

(** helper function to get the max value of a given number of bits *)
Definition getBits (bits : N) : Z := pow2 bits - 1.

(** ** The big-integer capability *)

Module BigInt.

Definition zero : Z := 0.
Definition subtract (a b : Z) : Z := a - b.
Definition minus (a b : Z) : Z := a - b.
Definition add (a b : Z) : Z := a + b.
Definition next (a : Z) : Z := a + 1.
Definition mod_ (a b : Z) : result Z :=
  if b =? 0 then Throw DivideByZero else Ok (Z.rem a b).
Definition greaterOrEquals (a b : Z) : bool := b <=? a.
Definition shiftLeft (a : Z) (n : N) : Z := Z.shiftl a (Z.of_N n).
Definition shiftRight (a : Z) (n : N) : Z := Z.shiftr a (Z.of_N n).
Definition and (a b : Z) : Z := Z.land a b.

(** decimal text, with a leading minus sign for a negative value *)
Definition toString (a : Z) : string := NilZero.string_of_int (Z.to_int a).

(** [BigInt(v)] for a number: [NaN] is no integer *)
Definition of_number (n : number) : result Z :=
  match n with
  | Int z => Ok z
  | NaN => Throw InvalidInteger
  end.

(** [BigInt(v)] for decimal text ([-] and digits); other text is
    rejected here *)
Definition of_string (s : string) : result Z :=
  match NilZero.int_of_string s with
  | Some d => Ok (Z.of_int d)
  | None => Throw InvalidInteger
  end.

(** [BigInt(v)] *)
Definition parse (v : value) : result Z :=
  match v with
  | Str s => of_string s
  | Num n => of_number n
  | Big z => Ok z
  | Undefined => Ok zero
  | Bool _ => Throw TypeError
  end.

End BigInt.

(** ** Objects

    [Object.freeze] marks an object; an assignment to a property of a
    frozen object, or the addition of a property to it, leaves it as it is.
    [extra] holds the properties of an object beyond the declared ones.
    The freeze is shallow.  The writes from outside that the embedding
    has are assignments to the properties of the instance, of [options]
    and of [mutable]; a BigInteger that a property holds is the integer
    itself, and a write into such an object has no counterpart here. *)

Class Freezable (T : Type) : Type := {
  isFrozen : T -> bool;
  freeze : T -> T
}.

(** [obj.key = v] by code outside the class, given as the update [upd] it
    would perform on an object that is not frozen *)
Definition assign {T} `{Freezable T} (upd : T -> T) (obj : T) : T :=
  if isFrozen obj then obj else upd obj.

Definition properties : Type := list (string * value).

Fixpoint lookup (key : string) (ps : properties) : value :=
  match ps with
  | [] => Undefined
  | (k, v) :: ps' => if String.eqb k key then v else lookup key ps'
  end.

(** [this.options] *)
Module Options.

Record t : Type := mk {
  epoch : Z;
  incrementBits : N;
  processBits : N;
  workerBits : N;
  processId : number;
  workerId : number;
  async : bool;
  stringify : bool;
  extra : properties;
  frozen : bool
}.

Definition set_processId (v : number) (o : t) : t :=
  mk (epoch o) (incrementBits o) (processBits o) (workerBits o)
     v (workerId o) (async o) (stringify o) (extra o) (frozen o).

Definition set_workerId (v : number) (o : t) : t :=
  mk (epoch o) (incrementBits o) (processBits o) (workerBits o)
     (processId o) v (async o) (stringify o) (extra o) (frozen o).

Definition set_extra (key : string) (v : value) (o : t) : t :=
  mk (epoch o) (incrementBits o) (processBits o) (workerBits o)
     (processId o) (workerId o) (async o) (stringify o)
     ((key, v) :: extra o) (frozen o).

Definition set_frozen (o : t) : t :=
  mk (epoch o) (incrementBits o) (processBits o) (workerBits o)
     (processId o) (workerId o) (async o) (stringify o) (extra o) true.

(** the defaults of lines 38-45 *)
Definition defaults : t :=
  mk 1420070400000 12 5 5 (Int 0) (Int 0) false true [] false.

End Options.

#[export] Instance Options_Freezable : Freezable Options.t :=
  {| isFrozen := Options.frozen; freeze := Options.set_frozen |}.

(** a promise is named by the order of its creation; the resolver kept in
    [locks] is the one of the promise of that name *)
Definition promise : Type := nat.

(** [this.mutable]: an object containing mutable (unfrozen) properties *)
Module Mutable.

Record t : Type := mk {
  increment : Z;
  lastTimestamp : Z;
  locks : list promise;
  locked : bool;
  extra : properties;
  frozen : bool
}.

Definition set_increment (v : Z) (m : t) : t :=
  mk v (lastTimestamp m) (locks m) (locked m) (extra m) (frozen m).

Definition set_lastTimestamp (v : Z) (m : t) : t :=
  mk (increment m) v (locks m) (locked m) (extra m) (frozen m).

Definition set_locks (v : list promise) (m : t) : t :=
  mk (increment m) (lastTimestamp m) v (locked m) (extra m) (frozen m).

Definition set_locked (v : bool) (m : t) : t :=
  mk (increment m) (lastTimestamp m) (locks m) v (extra m) (frozen m).

Definition set_extra (key : string) (v : value) (m : t) : t :=
  mk (increment m) (lastTimestamp m) (locks m) (locked m)
     ((key, v) :: extra m) (frozen m).

Definition set_frozen (m : t) : t :=
  mk (increment m) (lastTimestamp m) (locks m) (locked m) (extra m) true.

End Mutable.

#[export] Instance Mutable_Freezable : Freezable Mutable.t :=
  {| isFrozen := Mutable.frozen; freeze := Mutable.set_frozen |}.

(** an instance of the class: [this] *)
Record Catflake : Type := mkCatflake {
  options : Options.t;
  mutable : Mutable.t;
  maxIncrement : Z;
  workerId : Z;
  processId : Z;
  extra : properties;
  frozen : bool
}.

Definition set_options (v : Options.t) (c : Catflake) : Catflake :=
  mkCatflake v (mutable c) (maxIncrement c) (workerId c) (processId c)
             (extra c) (frozen c).

Definition set_mutable (v : Mutable.t) (c : Catflake) : Catflake :=
  mkCatflake (options c) v (maxIncrement c) (workerId c) (processId c)
             (extra c) (frozen c).

Definition set_maxIncrement (v : Z) (c : Catflake) : Catflake :=
  mkCatflake (options c) (mutable c) v (workerId c) (processId c)
             (extra c) (frozen c).

Definition set_workerId (v : Z) (c : Catflake) : Catflake :=
  mkCatflake (options c) (mutable c) (maxIncrement c) v (processId c)
             (extra c) (frozen c).

Definition set_processId (v : Z) (c : Catflake) : Catflake :=
  mkCatflake (options c) (mutable c) (maxIncrement c) (workerId c) v
             (extra c) (frozen c).

Definition set_extra (key : string) (v : value) (c : Catflake) : Catflake :=
  mkCatflake (options c) (mutable c) (maxIncrement c) (workerId c)
             (processId c) ((key, v) :: extra c) (frozen c).

Definition set_frozen (c : Catflake) : Catflake :=
  mkCatflake (options c) (mutable c) (maxIncrement c) (workerId c)
             (processId c) (extra c) true.

#[export] Instance Catflake_Freezable : Freezable Catflake :=
  {| isFrozen := frozen; freeze := set_frozen |}.

(** ** The constructor *)

(** the two listings of the file *)
Inductive revision : Type :=
| RevA   (* lines 1-191: ids reduced by [% getBits(bits)] *)
| RevB.  (* lines 191-392: ids reduced by [% (2 ** bits)], NaN replaced by 0 *)

(** lines 61-63 and lines 265-270: ensure that ids conform to the number of
    bits *)
Definition conform (rev : revision) (id : number) (bits : N) : number :=
  match rev with
  | RevA => js_rem id (getBits bits)
  | RevB =>
      let id := js_rem id (pow2 bits) in
      if isNaN id then Int 0 else id
  end.

(** the argument of the constructor: [None] is a property left out *)
Module Supplied.

Record t : Type := mk {
  epoch : option Z;
  incrementBits : option N;
  processBits : option N;
  workerBits : option N;
  processId : option number;
  workerId : option number;
  async : option bool;
  stringify : option bool;
  extra : properties
}.

(** [{}], the default argument *)
Definition empty : t := mk None None None None None None None None [].

End Supplied.

Definition or_default {A} (supplied : option A) (default : A) : A :=
  match supplied with
  | Some a => a
  | None => default
  end.

(** lines 37-47: the defaults, overridden by the properties supplied *)
Definition merge (options : Supplied.t) : Options.t :=
  Options.mk
    (or_default (Supplied.epoch options) (Options.epoch Options.defaults))
    (or_default (Supplied.incrementBits options)
                (Options.incrementBits Options.defaults))
    (or_default (Supplied.processBits options)
                (Options.processBits Options.defaults))
    (or_default (Supplied.workerBits options)
                (Options.workerBits Options.defaults))
    (or_default (Supplied.processId options)
                (Options.processId Options.defaults))
    (or_default (Supplied.workerId options)
                (Options.workerId Options.defaults))
    (or_default (Supplied.async options) (Options.async Options.defaults))
    (or_default (Supplied.stringify options)
                (Options.stringify Options.defaults))
    (Supplied.extra options)
    false.

(** lines 49-73 of the constructor, on the options merged on lines 37-47;
    [now] is what [Date.now()] returns on line 52.  [BigInt(NaN)] on lines
    68-69 throws. *)
Definition constructor (rev : revision) (options : Options.t) (now : Z)
  : result Catflake :=
  let mutable :=
    Mutable.mk (BigInt.subtract BigInt.zero 1) now [] false [] false in
  if negb (Options.incrementBits options + Options.processBits options
           + Options.workerBits options =? 22)%N
  then Throw InvalidBitWidthConfiguration
  else
    let options :=
      Options.set_processId
        (conform rev (Options.processId options) (Options.processBits options))
        options in
    let options :=
      Options.set_workerId
        (conform rev (Options.workerId options) (Options.workerBits options))
        options in
    let maxIncrement := pow2 (Options.incrementBits options) in
    result_bind (BigInt.of_number (Options.workerId options)) (fun w =>
    let workerId :=
      BigInt.shiftLeft w
        (Options.incrementBits options + Options.processBits options) in
    result_bind (BigInt.of_number (Options.processId options)) (fun p =>
    let processId := BigInt.shiftLeft p (Options.incrementBits options) in
    let options := freeze options in
    Ok (freeze
          (mkCatflake options mutable maxIncrement workerId processId
                      [] false)))).

(** [new Catflake(options)] *)
Definition new_Catflake (rev : revision) (options : Supplied.t) (now : Z)
  : result Catflake :=
  constructor rev (merge options) now.

(** ** The state the methods run in

    [this] is the instance, [clock] and [reads] are the clock oracle and the
    number of [Date.now()] calls made so far, [promises] counts the promises
    created by [_lock] and [resolved] lists the promises whose resolver has
    been called, latest first. *)

Record world : Type := mkWorld {
  this : Catflake;
  clock : nat -> Z;
  reads : nat;
  promises : nat;
  resolved : list promise
}.

Definition M (A : Type) : Type := world -> result A * world.

Definition ret {A} (a : A) : M A := fun w => (Ok a, w).

Definition bind {A B} (m : M A) (k : A -> M B) : M B :=
  fun w =>
    match m w with
    | (Ok a, w') => k a w'
    | (Throw e, w') => (Throw e, w')
    end.

Notation "x <- m ;; k" := (bind m (fun x => k))
  (at level 61, m at next level, right associativity).
Notation "m ;;; k" := (bind m (fun _ => k))
  (at level 61, right associativity).

Definition lift {A} (r : result A) : M A := fun w => (r, w).

Definition get_this : M Catflake := fun w => (Ok (this w), w).

Definition set_this (c : Catflake) (w : world) : world :=
  mkWorld c (clock w) (reads w) (promises w) (resolved w).

(** the clock has been read once more *)
Definition tick (w : world) : world :=
  mkWorld (this w) (clock w) (S (reads w)) (promises w) (resolved w).

(** [this.mutable] has been changed by [upd] *)
Definition with_mutable (upd : Mutable.t -> Mutable.t) (w : world) : world :=
  set_this (set_mutable (upd (mutable (this w))) (this w)) w.

(** an assignment to a property of [this.mutable] by a method; the class
    body is strict code, where an assignment to a frozen object throws *)
Definition update_mutable (upd : Mutable.t -> Mutable.t) : M unit :=
  fun w =>
    if isFrozen (mutable (this w))
    then (Throw TypeError, w)
    else (Ok tt, with_mutable upd w).

(** [this.mutable.locks.push(res)] and [this.mutable.locks.shift()]: the
    array is changed in place, which a frozen [this.mutable] does not
    prevent *)
Definition splice_locks (locks : list promise) : M unit :=
  fun w => (Ok tt, with_mutable (Mutable.set_locks locks) w).

(** [Date.now()] *)
Definition Date_now : M Z :=
  fun w => (Ok (clock w (reads w)), tick w).

(** one more promise has been created *)
Definition alloc (w : world) : world :=
  mkWorld (this w) (clock w) (reads w) (S (promises w)) (resolved w).

(** the resolver of promise [p] has been called *)
Definition wake (p : promise) (w : world) : world :=
  mkWorld (this w) (clock w) (reads w) (promises w) (p :: resolved w).

(** [new Promise(res => ...)]: the promise created, which names its
    resolver *)
Definition new_Promise : M promise :=
  fun w => (Ok (promises w), alloc w).

(** the call [res()] of the resolver of promise [p] *)
Definition resolve (p : promise) : M unit :=
  fun w => (Ok tt, wake p w).

(** ** The methods *)

(** [get increment()] *)
Definition get_increment : M Z :=
  this <- get_this ;;
  v <- lift (BigInt.mod_ (BigInt.next (Mutable.increment (mutable this)))
                         (maxIncrement this)) ;;
  update_mutable (Mutable.set_increment v) ;;;
  ret v.

(** lines 101-103: [if (this.options.stringify) flake = flake.toString()] *)
Definition stringified (this : Catflake) (flake : Z) : value :=
  if Options.stringify (options this)
  then Str (BigInt.toString flake)
  else Big flake.

(** lines 93-99: the value packed from the date [d] and the increment [i] *)
Definition pack (this : Catflake) (d i : Z) : Z :=
  BigInt.add
    (BigInt.add
       (BigInt.add
          (BigInt.shiftLeft (BigInt.minus d (Options.epoch (options this)))
                            22)
          (workerId this))
       (processId this))
    i.

(** [_generate(date, increment = null)]; [None] is an argument left out.
    [date || Date.now()] reads the clock also for the date 0, which is
    falsy; [increment || this.increment] takes an increment that is passed,
    a BigInteger being an object and so truthy, and calls the getter
    otherwise. *)
Definition _generate (date : option Z) (increment : option Z) : M value :=
  this <- get_this ;;
  d <- match date with
       | Some d => if d =? 0 then Date_now else ret d
       | None => Date_now
       end ;;
  i <- match increment with
       | Some i => ret i
       | None => get_increment
       end ;;
  ret (stringified this (pack this d i)).

(** [_lock()]: the promise to wait for, if any *)
Definition _lock : M (option promise) :=
  this <- get_this ;;
  if Mutable.locked (mutable this)
  then
    p <- new_Promise ;;
    this <- get_this ;;
    splice_locks (Mutable.locks (mutable this) ++ [p]) ;;;
    ret (Some p)
  else
    update_mutable (Mutable.set_locked true) ;;;
    ret None.

(** [_unlock()] *)
Definition _unlock : M unit :=
  this <- get_this ;;
  match Mutable.locks (mutable this) with
  | p :: rest =>
      splice_locks rest ;;;
      resolve p
  | [] => update_mutable (Mutable.set_locked false)
  end.

(** what an [async] function waits for at an [await] *)
Inductive awaited : Type :=
| AwaitLock (p : promise)   (* line 124: [await lock] *)
| AwaitSleep (time : Z).    (* line 137: [await sleep(2)] *)

(** what a call has come to when it gives up control: it has returned a
    value, or it is suspended at an [await] *)
Inductive completion : Type :=
| Done (flake : value)
| Await (a : awaited).

(** lines 144-147 *)
Definition _generateAsync_finish (now : Z) : M completion :=
  this <- get_this ;;
  flake <- _generate (Some now) (Some (Mutable.increment (mutable this))) ;;
  _unlock ;;;
  ret (Done flake).

(** lines 138-140, where the call resumes after [await sleep(2)] *)
Definition _generateAsync_slept : M completion :=
  now <- Date_now ;;
  update_mutable (Mutable.set_lastTimestamp now) ;;;
  update_mutable (Mutable.set_increment BigInt.zero) ;;;
  _generateAsync_finish now.

(** lines 125-137, where the call goes on once it holds the lock *)
Definition _generateAsync_locked : M completion :=
  now <- Date_now ;;
  this <- get_this ;;
  if negb (Mutable.lastTimestamp (mutable this) =? now)
  then
    update_mutable (Mutable.set_lastTimestamp now) ;;;
    update_mutable (Mutable.set_increment BigInt.zero) ;;;
    _generateAsync_finish now
  else
    update_mutable
      (Mutable.set_increment
         (BigInt.next (Mutable.increment (mutable this)))) ;;;
    this <- get_this ;;
    if BigInt.greaterOrEquals (Mutable.increment (mutable this))
                              (maxIncrement this)
    then ret (Await (AwaitSleep 2))
    else _generateAsync_finish now.

(** [_generateAsync()], up to its first [await] *)
Definition _generateAsync : M completion :=
  lock <- _lock ;;
  match lock with
  | Some p => ret (Await (AwaitLock p))
  | None => _generateAsync_locked
  end.

(** a suspended call of [_generateAsync] resumes *)
Definition resume (a : awaited) : M completion :=
  match a with
  | AwaitLock _ => _generateAsync_locked
  | AwaitSleep _ => _generateAsync_slept
  end.

(** [generate()] *)
Definition generate : M completion :=
  this <- get_this ;;
  if Options.async (options this)
  then _generateAsync
  else
    flake <- _generate None None ;;
    ret (Done flake).

(** [this.deconstruct(snowflake)] *)
Module Deconstructed.

Record t : Type := mk {
  timestamp : Z;
  workerId : Z;
  processId : Z;
  increment : Z
}.

End Deconstructed.

Definition deconstruct (this : Catflake) (snowflake : value)
  : result Deconstructed.t :=
  result_bind (BigInt.parse snowflake) (fun flake =>
  let timestamp :=
    BigInt.add (BigInt.shiftRight flake 22) (Options.epoch (options this)) in
  let wBitShift :=
    (Options.incrementBits (options this)
     + Options.processBits (options this))%N in
  let workerId :=
    BigInt.shiftRight
      (BigInt.and flake
         (BigInt.shiftLeft (getBits (Options.workerBits (options this)))
                           wBitShift))
      wBitShift in
  let processId :=
    BigInt.shiftRight
      (BigInt.and flake
         (BigInt.shiftLeft (getBits (Options.processBits (options this)))
                           (Options.incrementBits (options this))))
      (Options.incrementBits (options this)) in
  let increment :=
    BigInt.and flake (getBits (Options.incrementBits (options this))) in
  Ok (Deconstructed.mk timestamp workerId processId increment)).

(** the world right after [new Catflake(options)] *)
Definition start (this : Catflake) (clock : nat -> Z) : world :=
  mkWorld this clock 0 0 [].

(** ** Calls of [generate()] in the event loop

    A call runs until it returns or reaches an [await]; a suspended call
    goes on when the promise it waits for is resolved, or when its timer
    fires.  [suspended] lists what the suspended calls wait for, the call
    that suspended first coming first. *)

Record system : Type := mkSystem {
  world_of : world;
  suspended : list awaited
}.

Inductive event : Type :=
| Call                  (* a caller calls [generate()] *)
| Resume (a : awaited). (* the call suspended on [a] goes on *)

Definition awaited_eqb (a b : awaited) : bool :=
  match a, b with
  | AwaitLock p, AwaitLock q => Nat.eqb p q
  | AwaitSleep s, AwaitSleep t => Z.eqb s t
  | _, _ => false
  end.

(** the promise of a lock is resolved; a timer may fire at any time *)
Definition ready (a : awaited) (w : world) : bool :=
  match a with
  | AwaitLock p => existsb (Nat.eqb p) (resolved w)
  | AwaitSleep _ => true
  end.

(** the call suspended on [a] has gone on and come to [r] *)
Fixpoint settle (a : awaited) (r : result completion) (l : list awaited)
  : list awaited :=
  match l with
  | [] => []
  | b :: l' =>
      if awaited_eqb a b
      then match r with
           | Ok (Await a') => a' :: l'
           | _ => l'
           end
      else b :: settle a r l'
  end.

(** one event: what the call involved comes to, and the system after; an
    event that cannot take place gives [None] *)
Definition fire (e : event) (s : system)
  : option (result completion * system) :=
  match e with
  | Call =>
      let (r, w') := generate (world_of s) in
      Some (r, mkSystem w'
                 match r with
                 | Ok (Await a) => suspended s ++ [a]
                 | _ => suspended s
                 end)
  | Resume a =>
      if existsb (awaited_eqb a) (suspended s) && ready a (world_of s)
      then
        let (r, w') := resume a (world_of s) in
        Some (r, mkSystem w' (settle a r (suspended s)))
      else None
  end.

(** a sequence of events: what the calls come to, in order *)
Fixpoint run (es : list event) (s : system)
  : list (result completion) * system :=
  match es with
  | [] => ([], s)
  | e :: es' =>
      match fire e s with
      | Some (r, s') => let (rs, s'') := run es' s' in (r :: rs, s'')
      | None => run es' s
      end
  end.

(** the system right after [new Catflake(options)] *)
Definition boot (this : Catflake) (clock : nat -> Z) : system :=
  mkSystem (start this clock) [].

(** ** The critical section as the specification words it

    Free -> (acquire) -> Held; Held -> (release, queue empty) -> Free;
    Held -> (release, queue non-empty) -> Held, the head of the queue owning
    the section.  This machine follows the specification; it is compared
    with [_lock] and [_unlock] below. *)

Module CriticalSection.

Inductive state : Type :=
| Free
| Held (queue : list promise).



End CriticalSection.

(** the state of the critical section of an instance *)
Definition section_state (w : world) : CriticalSection.state :=
  if Mutable.locked (mutable (this w))
  then CriticalSection.Held (Mutable.locks (mutable (this w)))
  else CriticalSection.Free.

(** * Notions used in the statements *)

(** a world in which the instance constructed as [c0] runs: nothing but
    properties of [this.mutable] have changed, and [this.mutable] is not
    frozen *)
Definition runs (c0 : Catflake) (w : world) : Prop :=
  this w = set_mutable (mutable (this w)) c0
  /\ Mutable.frozen (mutable (this w)) = false.

(** [date || Date.now()] on line 93, for a date that is passed in: the
    date packed and the world after *)
Definition date_used (now : Z) (w : world) : Z * world :=
  if now =? 0 then (clock w (reads w), tick w) else (now, w).

(** the world after lines 129-130 and after lines 139-140 *)
Definition adopted (now : Z) (w : world) : world :=
  with_mutable (Mutable.set_increment BigInt.zero)
    (with_mutable (Mutable.set_lastTimestamp now) (tick w)).

(** the world after line 133 *)
Definition advanced (w : world) : world :=
  with_mutable
    (Mutable.set_increment (BigInt.next (Mutable.increment (mutable (this w)))))
    (tick w).

(** the wait queue of a free section is empty *)
Definition queue_ok (w : world) : Prop :=
  Mutable.locked (mutable (this w)) = false ->
  Mutable.locks (mutable (this w)) = [].

(** what the lock sees of a world *)
Definition lock_view (w : world)
  : bool * list promise * nat * list promise :=
  (Mutable.locked (mutable (this w)), Mutable.locks (mutable (this w)),
   promises w, resolved w).

(** the promises of the queue are distinct, created and not resolved *)
Definition queue_inv (v : bool * list promise * nat * list promise) : Prop :=
  let '(_, locks, n, res) := v in
  NoDup locks
  /\ (forall p, In p locks -> (p < n)%nat /\ ~ In p res)
  /\ (forall p, In p res -> (p < n)%nat).

(** a free section has no waiter and no suspended call; a held section
    has one owner, which sleeps or has been woken and not yet gone on, and
    the suspended calls behind it are the waiters of the queue, in order *)
Definition phase_inv (v : bool * list promise * nat * list promise)
    (inc max : Z) (susp : list awaited) : Prop :=
  let '(locked, locks, _, res) := v in
  if locked
  then exists owner,
         susp = owner :: map AwaitLock locks
         /\ match owner with
            | AwaitSleep time => time = 2 /\ inc = max
            | AwaitLock p => In p res /\ -1 <= inc < max
            end
  else locks = [] /\ susp = [] /\ -1 <= inc < max.

(** the invariant of the event loop: the instance runs, a sequential
    instance is never locked, and the queue and the suspended calls are as
    above *)
Definition Inv (c0 : Catflake) (s : system) : Prop :=
  runs c0 (world_of s)
  /\ (Options.async (options c0) = false ->
      Mutable.locked (mutable (this (world_of s))) = false)
  /\ queue_inv (lock_view (world_of s))
  /\ phase_inv (lock_view (world_of s))
       (Mutable.increment (mutable (this (world_of s))))
       (maxIncrement c0) (suspended s).

(** what a call comes to: a snowflake whose increment is within its bits,
    or a suspension; never an error *)
Definition within_bits (c0 : Catflake) (r : result completion) : Prop :=
  match r with
  | Ok (Done flake) =>
      exists t i,
        flake = stringified c0 (pack c0 t i)
        /\ 0 <= i < maxIncrement c0
  | Ok (Await _) => True
  | Throw _ => False
  end.

(** the instance [new Catflake()] constructed at the time 1514790000000 *)
Definition sample : Catflake :=
  mkCatflake
    (Options.mk 1420070400000 12 5 5 (Int 0) (Int 0) false true [] true)
    (Mutable.mk (-1) 1514790000000 [] false [] false)
    4096 0 0 [] true.

(** the instance of the test 'should properly roll over (300)', with worker
    id 5 and process id 3 *)
Definition sample_concurrent : Catflake :=
  mkCatflake
    (Options.mk 1420070400000 2 10 10 (Int 3) (Int 5) true true [] true)
    (Mutable.mk (-1) 1514790000000 [] false [] false)
    4 20480 12 [] true.

(** the options it is constructed from *)
Definition sample_options_concurrent : Options.t :=
  Options.mk 1420070400000 2 10 10 (Int 3) (Int 5) true true [] false.

(** a sequential instance with two increment bits, worker id 5 and process
    id 3, and the options it is constructed from *)
Definition sample_sequential : Catflake :=
  mkCatflake
    (Options.mk 1420070400000 2 10 10 (Int 3) (Int 5) false true [] true)
    (Mutable.mk (-1) 1514790000000 [] false [] false)
    4 20480 12 [] true.

Definition sample_options_sequential : Options.t :=
  Options.mk 1420070400000 2 10 10 (Int 3) (Int 5) false true [] false.

(** the increment restarts at the timestamp [t] after the snowflake
    [prev]: the timestamp is another one, or the snowflake before was
    packed from the highest increment, the call having slept on lines
    136-137 *)
Definition restarts (c : Catflake) (prev : option (Z * Z)) (t : Z) : Prop :=
  match prev with
  | Some (t', i') => t' = t -> i' = maxIncrement c - 1
  | None => True
  end.

(** the snowflakes among what a sequence of calls comes to, each packed
    from an increment within the bits: from 0, the increment restarting,
    or from one more than the increment of the snowflake before it, packed
    from the same timestamp; [prev] is the timestamp and the increment of
    the snowflake before *)
Fixpoint chained (c : Catflake) (prev : option (Z * Z))
    (rs : list (result completion)) : Prop :=
  match rs with
  | [] => True
  | Ok (Done flake) :: rs' =>
      exists t i,
        flake = stringified c (pack c t i)
        /\ 0 <= i < maxIncrement c
        /\ (i = 0 /\ restarts c prev t \/ prev = Some (t, i - 1))
        /\ chained c (Some (t, i)) rs'
  | Ok (Await _) :: rs' => chained c prev rs'
  | Throw _ :: rs' => False
  end.

(** the stored increment is at the bound after a snowflake packed from the
    highest increment, a call being about to sleep or asleep, or the
    stored timestamp and increment are those of the snowflake returned
    last, the increment being the seed before the first *)
Definition follows (c : Catflake) (prev : option (Z * Z)) (w : world)
  : Prop :=
  (maxIncrement c <= Mutable.increment (mutable (this w))
   /\ exists t, prev = Some (t, maxIncrement c - 1))
  \/ match prev with
     | Some (t, i) =>
         Mutable.lastTimestamp (mutable (this w)) = t
         /\ Mutable.increment (mutable (this w)) = i
         /\ 0 <= i < maxIncrement c
     | None => Mutable.increment (mutable (this w)) = -1
     end.

(** the instance runs, its clock never reads 0, and its state follows the
    snowflake returned last *)
Definition keeps (c : Catflake) (prev : option (Z * Z)) (w : world) : Prop :=
  runs c w /\ (forall n, clock w n <> 0) /\ follows c prev w.

(** what a step comes to, after the snowflake [prev], and the state after
    it *)
Definition linked (c : Catflake) (prev : option (Z * Z))
    (r : result completion) (w' : world) : Prop :=
  match r with
  | Ok (Done flake) =>
      exists t i,
        flake = stringified c (pack c t i)
        /\ 0 <= i < maxIncrement c
        /\ (i = 0 /\ restarts c prev t \/ prev = Some (t, i - 1))
        /\ keeps c (Some (t, i)) w'
  | Ok (Await _) => keeps c prev w'
  | Throw _ => False
  end.

(** the promises created by [_lock], those resolved first, in the order of
    their resolution, then those waiting, in the order of the queue *)
Definition ledger (w : world) : list promise :=
  rev (resolved w) ++ Mutable.locks (mutable (this w)).


(** the snowflakes returned among what a sequence of events comes to *)
Fixpoint returned (rs : list (result completion)) : list value :=
  match rs with
  | [] => []
  | Ok (Done flake) :: rs' => flake :: returned rs'
  | _ :: rs' => returned rs'
  end.

(** * Properties *)

(** ** The big-integer operations as arithmetic *)

Lemma pow2_pos (bits : N) : 0 < pow2 bits.
Proof. unfold pow2. apply Z.pow_pos_nonneg; lia. Qed.

Lemma pow2_add (a b : N) : pow2 (a + b) = pow2 a * pow2 b.
Proof. unfold pow2. rewrite N2Z.inj_add, Z.pow_add_r; lia. Qed.

Lemma shiftLeft_mul (a : Z) (n : N) : BigInt.shiftLeft a n = a * pow2 n.
Proof. unfold BigInt.shiftLeft, pow2. apply Z.shiftl_mul_pow2. lia. Qed.

Lemma shiftRight_div (a : Z) (n : N) : BigInt.shiftRight a n = a / pow2 n.
Proof. unfold BigInt.shiftRight, pow2. apply Z.shiftr_div_pow2. lia. Qed.

Lemma getBits_ones (n : N) : getBits n = Z.ones (Z.of_N n).
Proof. unfold getBits, pow2. rewrite Z.ones_equiv. lia. Qed.

Lemma and_getBits (a : Z) (n : N) : BigInt.and a (getBits n) = a mod pow2 n.
Proof.
  unfold BigInt.and. rewrite getBits_ones. apply Z.land_ones. lia.
Qed.

(** a field read by mask, shift left, [and], shift right *)
Lemma masked_field (a : Z) (bits s : N) :
  BigInt.shiftRight (BigInt.and a (BigInt.shiftLeft (getBits bits) s)) s
  = (a / pow2 s) mod pow2 bits.
Proof.
  unfold BigInt.shiftRight, BigInt.and, BigInt.shiftLeft.
  rewrite Z.shiftr_land, Z.shiftr_shiftl_l by lia.
  rewrite Z.sub_diag, Z.shiftl_0_r, getBits_ones, Z.land_ones by lia.
  rewrite Z.shiftr_div_pow2 by lia. reflexivity.
Qed.

Lemma digit (q A r : Z) :
  0 <= r < A -> (q * A + r) / A = q /\ (q * A + r) mod A = r.
Proof.
  intros Hr.
  assert (H : (q * A + r) / A = q).
  { symmetry. apply (Z.div_unique _ _ _ r); lia. }
  split; [ rewrite H; reflexivity | ].
  symmetry. apply (Z.mod_unique _ _ q); lia.
Qed.

(** the four fields of a packed value, by division and remainder *)
Lemma packed_fields (A B C d w p i : Z) :
  0 <= i < A -> 0 <= p < B -> 0 <= w < C ->
  let F := d * (A * B * C) + w * (A * B) + p * A + i in
  F mod A = i /\ (F / A) mod B = p /\ (F / (A * B)) mod C = w
  /\ F / (A * B * C) = d.
Proof.
  intros Hi Hp Hw F.
  assert (E1 : F = ((d * C + w) * B + p) * A + i) by (unfold F; ring).
  destruct (digit ((d * C + w) * B + p) A i Hi) as [D1 M1].
  destruct (digit (d * C + w) B p Hp) as [D2 M2].
  destruct (digit d C w Hw) as [D3 M3].
  assert (QA : F / A = (d * C + w) * B + p) by (rewrite E1; exact D1).
  assert (QB : F / (A * B) = d * C + w).
  { rewrite <- Z.div_div by lia. rewrite QA. exact D2. }
  repeat split.
  - rewrite E1. exact M1.
  - rewrite QA. exact M2.
  - rewrite QB. exact M3.
  - rewrite <- Z.div_div by nia. rewrite QB. exact D3.
Qed.

(** the lowest field alone needs no bound on the others *)
Lemma packed_low (A q i : Z) : 0 <= i < A -> (q * A + i) mod A = i.
Proof. intros Hi. apply (digit q A i Hi). Qed.

(** decimal text is read back as the integer it was written from *)
Lemma of_string_toString (z : Z) :
  BigInt.of_string (BigInt.toString z) = Ok z.
Proof.
  unfold BigInt.of_string, BigInt.toString.
  rewrite NilZero.isi.
  - rewrite DecimalZ.of_to. reflexivity.
  - destruct z; simpl; try discriminate.
    intros [= H]. exact (DecimalPos.Unsigned.to_uint_nonnil _ H).
  - destruct z; simpl; try discriminate.
    intros [= H]. exact (DecimalPos.Unsigned.to_uint_nonnil _ H).
Qed.

(** ** What the constructor returns *)

Lemma conform_RevB_Int (id : number) (bits : N) :
  exists z, conform RevB id bits = Int z.
Proof.
  unfold conform, js_rem. destruct id as [x|]; simpl.
  - pose proof (pow2_pos bits). destruct (pow2 bits =? 0) eqn:E; [lia|].
    simpl. eauto.
  - eauto.
Qed.

Lemma constructor_Ok (rev : revision) (o : Options.t) (now : Z) (c : Catflake) :
  constructor rev o now = Ok c ->
  (Options.incrementBits o + Options.processBits o + Options.workerBits o
   = 22)%N
  /\ exists w p,
      conform rev (Options.workerId o) (Options.workerBits o) = Int w
      /\ conform rev (Options.processId o) (Options.processBits o) = Int p
      /\ c = mkCatflake
               (Options.mk (Options.epoch o) (Options.incrementBits o)
                  (Options.processBits o) (Options.workerBits o)
                  (Int p) (Int w) (Options.async o) (Options.stringify o)
                  (Options.extra o) true)
               (Mutable.mk (-1) now [] false [] false)
               (pow2 (Options.incrementBits o))
               (w * pow2 (Options.incrementBits o + Options.processBits o))
               (p * pow2 (Options.incrementBits o))
               [] true.
Proof.
  unfold constructor. destruct o as [e ib pb wb pid wid a s x f].
  cbn [Options.incrementBits Options.processBits Options.workerBits
       Options.processId Options.workerId Options.set_processId
       Options.set_workerId Options.epoch Options.async Options.stringify
       Options.extra Options.frozen].
  destruct (ib + pb + wb =? 22)%N eqn:E; cbn [negb]; [|discriminate].
  apply N.eqb_eq in E. intros H. split; [exact E|].
  destruct (conform rev wid wb) as [w|]; cbn in H; [|discriminate].
  destruct (conform rev pid pb) as [p|]; cbn in H; [|discriminate].
  injection H as <-. exists w, p. rewrite !shiftLeft_mul. auto.
Qed.

Lemma runs_start (rev : revision) (o : Options.t) (now : Z) (c : Catflake)
    (clock : nat -> Z) :
  constructor rev o now = Ok c -> runs c (start c clock).
Proof.
  intros H. apply constructor_Ok in H. destruct H as [_ (w & p & _ & _ & ->)].
  split; reflexivity.
Qed.

(** ** Running the methods *)

Lemma update_mutable_run (upd : Mutable.t -> Mutable.t) (w : world) :
  Mutable.frozen (mutable (this w)) = false ->
  update_mutable upd w = (Ok tt, with_mutable upd w).
Proof.
  intros H. unfold update_mutable, with_mutable. simpl.
  rewrite H. reflexivity.
Qed.

Lemma pack_eq (c : Catflake) (d i : Z) :
  pack c d i
  = (d - Options.epoch (options c)) * pow2 22 + workerId c + processId c + i.
Proof.
  unfold pack, BigInt.add, BigInt.minus. rewrite shiftLeft_mul. reflexivity.
Qed.

Lemma _generate_given (w : world) (t i : Z) :
  t <> 0 ->
  _generate (Some t) (Some i) w
  = (Ok (stringified (this w) (pack (this w) t i)), w).
Proof.
  intros Ht. unfold _generate, bind, get_this, ret.
  apply Z.eqb_neq in Ht. rewrite Ht. reflexivity.
Qed.

Lemma _generate_clock (w : world) (i : Z) :
  _generate None (Some i) w
  = (Ok (stringified (this w) (pack (this w) (clock w (reads w)) i)), tick w).
Proof. reflexivity. Qed.

Lemma get_increment_run (w : world) :
  Mutable.frozen (mutable (this w)) = false ->
  maxIncrement (this w) <> 0 ->
  let v := Z.rem (Mutable.increment (mutable (this w)) + 1)
                 (maxIncrement (this w)) in
  get_increment w = (Ok v, with_mutable (Mutable.set_increment v) w).
Proof.
  intros Hf Hm v. unfold get_increment, bind, get_this, lift, BigInt.mod_.
  apply Z.eqb_neq in Hm. rewrite Hm.
  rewrite update_mutable_run by exact Hf. reflexivity.
Qed.

(** ** Unpacking *)

Lemma deconstruct_Big (c : Catflake) (F : Z) :
  deconstruct c (Big F)
  = Ok (Deconstructed.mk
          (F / pow2 22 + Options.epoch (options c))
          ((F / pow2 (Options.incrementBits (options c)
                      + Options.processBits (options c)))
           mod pow2 (Options.workerBits (options c)))
          ((F / pow2 (Options.incrementBits (options c)))
           mod pow2 (Options.processBits (options c)))
          (F mod pow2 (Options.incrementBits (options c)))).
Proof.
  unfold deconstruct. simpl.
  rewrite !masked_field, and_getBits, shiftRight_div. reflexivity.
Qed.

Lemma deconstruct_stringified (c : Catflake) (F : Z) :
  deconstruct c (stringified c F) = deconstruct c (Big F).
Proof.
  unfold stringified. destruct (Options.stringify (options c)); [|reflexivity].
  unfold deconstruct. simpl. rewrite of_string_toString. reflexivity.
Qed.

(** ** The stored ids *)

Lemma conform_bound (rev : revision) (id : number) (bits : N) (z : Z) :
  conform rev id bits = Int z -> Z.abs z < pow2 bits.
Proof.
  pose proof (pow2_pos bits) as Hp.
  unfold conform, js_rem. destruct rev, id as [x|]; simpl.
  - unfold getBits. destruct (pow2 bits - 1 =? 0) eqn:E; [discriminate|].
    apply Z.eqb_neq in E. intros [= <-].
    pose proof (Z.rem_bound_abs x (pow2 bits - 1) E). lia.
  - discriminate.
  - destruct (pow2 bits =? 0) eqn:E; [lia|]. apply Z.eqb_neq in E.
    simpl. intros [= <-].
    pose proof (Z.rem_bound_abs x (pow2 bits) E). lia.
  - intros [= <-]. simpl. lia.
Qed.

(** ** The layout of a snowflake *)

Lemma layout_arith (ib pb wb : N) (d w p i : Z) :
  (ib + pb + wb = 22)%N ->
  0 <= i < pow2 ib -> 0 <= p < pow2 pb -> 0 <= w < pow2 wb ->
  let F := d * pow2 22 + w * pow2 (ib + pb) + p * pow2 ib + i in
  F / pow2 22 = d
  /\ F mod pow2 22 = w * pow2 (ib + pb) + p * pow2 ib + i
  /\ (F / pow2 (ib + pb)) mod pow2 wb = w
  /\ (F / pow2 ib) mod pow2 pb = p
  /\ F mod pow2 ib = i.
Proof.
  intros Hsum Hi Hp Hw F.
  assert (E22 : pow2 22 = pow2 ib * pow2 pb * pow2 wb)
    by (rewrite <- Hsum, !pow2_add; reflexivity).
  destruct (packed_fields (pow2 ib) (pow2 pb) (pow2 wb) d w p i Hi Hp Hw)
    as (F1 & F2 & F3 & F4).
  unfold F. rewrite E22, !pow2_add. repeat split; trivial.
  replace (d * (pow2 ib * pow2 pb * pow2 wb) + w * (pow2 ib * pow2 pb)
           + p * pow2 ib + i)
    with (d * (pow2 ib * pow2 pb * pow2 wb)
          + (w * (pow2 ib * pow2 pb) + p * pow2 ib + i)) by ring.
  apply digit.
  pose proof (Z.mul_pos_pos _ _ (pow2_pos ib) (pow2_pos pb)) as HAB.
  assert (w * (pow2 ib * pow2 pb) <= (pow2 wb - 1) * (pow2 ib * pow2 pb))
    by (apply Z.mul_le_mono_nonneg_r; lia).
  assert (p * pow2 ib <= (pow2 pb - 1) * pow2 ib)
    by (apply Z.mul_le_mono_nonneg_r; lia).
  assert (0 <= w * (pow2 ib * pow2 pb)) by (apply Z.mul_nonneg_nonneg; lia).
  assert (0 <= p * pow2 ib) by (apply Z.mul_nonneg_nonneg; lia).
  lia.
Qed.

(** X15: for a constructed instance, the snowflake packed from the
    timestamp [t] and the increment [i] is
    [(t - epoch) * 2^22 + workerId * 2^(incrementBits+processBits)
     + processId * 2^incrementBits + i],
    whether the timestamp is read from the clock or passed in; when the
    stored ids are not negative, and then only, the statement goes on: the
    four fields are read back from it by division and remainder, and the
    low 22 bits hold the three subfields. *)
Theorem pack_layout (rev : revision) (o : Options.t) (now : Z) (c : Catflake) :
  constructor rev o now = Ok c ->
  exists wid pid,
    Options.workerId (options c) = Int wid
    /\ Options.processId (options c) = Int pid
    /\ forall t i,
        0 <= i < pow2 (Options.incrementBits (options c)) ->
        let ib := Options.incrementBits (options c) in
        let pb := Options.processBits (options c) in
        let wb := Options.workerBits (options c) in
        let F := (t - Options.epoch (options c)) * pow2 22
                 + wid * pow2 (ib + pb) + pid * pow2 ib + i in
        pack c t i = F
        /\ (forall w, runs c w -> clock w (reads w) = t ->
              fst (_generate None (Some i) w) = Ok (stringified c F))
        /\ (forall w, runs c w -> t <> 0 ->
              fst (_generate (Some t) (Some i) w) = Ok (stringified c F))
        /\ (0 <= wid -> 0 <= pid ->
            F / pow2 22 = t - Options.epoch (options c)
            /\ F mod pow2 22 = wid * pow2 (ib + pb) + pid * pow2 ib + i
            /\ (F / pow2 (ib + pb)) mod pow2 wb = wid
            /\ (F / pow2 ib) mod pow2 pb = pid
            /\ F mod pow2 ib = i).
Proof.
  intros H. apply constructor_Ok in H.
  destruct H as (Hsum & wid & pid & Hw & Hp & ->).
  exists wid, pid.
  split; [reflexivity|]. split; [reflexivity|].
  cbn [options Options.incrementBits Options.processBits Options.workerBits
       Options.epoch].
  intros t i Hi. cbv zeta. split; [|split; [|split]].
  - rewrite pack_eq. reflexivity.
  - intros w [Hthis _] Ht. rewrite _generate_clock, Hthis, Ht, pack_eq.
    reflexivity.
  - intros w [Hthis _] Ht. rewrite _generate_given by exact Ht.
    rewrite Hthis, pack_eq. reflexivity.
  - intros Hw0 Hp0.
    apply conform_bound in Hw. apply conform_bound in Hp.
    apply layout_arith; trivial; lia.
Qed.

(** C2, at a worker id of -1, which both listings store as -1: the
    snowflake packed from any timestamp [t] and the increment 3242 is the
    sum of the claim, and the fields do not lie in separate bit ranges:
    the worker id borrows from the timestamp, so that the bits above the
    low 22 are [t - epoch - 1], the five bits of the worker id are 31, and
    the low 22 bits are not the three subfields put together. *)
Theorem negative_id_overlaps_fields (rev : revision) (t : Z) :
  let o := Options.set_workerId (Int (-1)) Options.defaults in
  exists c,
    constructor rev o 1514790000000 = Ok c
    /\ Options.workerId (options c) = Int (-1)
    /\ Options.processId (options c) = Int 0
    /\ Options.epoch (options c) = 1420070400000
    /\ Options.incrementBits (options c) = 12%N
    /\ Options.processBits (options c) = 5%N
    /\ Options.workerBits (options c) = 5%N
    /\ fst (_generate (Some 1514790000000) (Some 3242)
              (start c (fun _ => 1514790000000)))
       = Ok (Str "397282797158272170")
    /\ (let F := pack c t 3242 in
        F = (t - 1420070400000) * pow2 22
            + (-1) * pow2 (12 + 5) + 0 * pow2 12 + 3242
        /\ F / pow2 22 = t - 1420070400000 - 1
        /\ (F / pow2 (12 + 5)) mod pow2 5 = 31
        /\ (F / pow2 12) mod pow2 5 = 0
        /\ F mod pow2 12 = 3242
        /\ F mod pow2 22 = 31 * pow2 (12 + 5) + 0 * pow2 12 + 3242
        /\ F mod pow2 22 <> (-1) * pow2 (12 + 5) + 0 * pow2 12 + 3242).
Proof.
  cbv zeta.
  exists (mkCatflake
            (Options.mk 1420070400000 12 5 5 (Int 0) (Int (-1)) false true
                        [] true)
            (Mutable.mk (-1) 1514790000000 [] false [] false)
            4096 (-131072) 0 [] true).
  split; [destruct rev; reflexivity|].
  do 6 (split; [reflexivity|]).
  split; [vm_compute; reflexivity|].
  rewrite pack_eq.
  cbn [options workerId processId Options.epoch].
  assert (E : (t - 1420070400000) * pow2 22 + -131072 + 0 + 3242
              = (t - 1420070400000 - 1) * pow2 22
                + 31 * pow2 (12 + 5) + 0 * pow2 12 + 3242).
  { change (pow2 22) with 4194304. change (pow2 (12 + 5)) with 131072.
    change (pow2 12) with 4096. ring. }
  split; [change (pow2 (12 + 5)) with 131072; ring|].
  rewrite E.
  destruct (layout_arith 12 5 5 (t - 1420070400000 - 1) 31 0 3242)
    as (F1 & F2 & F3 & F4 & F5);
    try reflexivity;
    try (change (pow2 12) with 4096; change (pow2 5) with 32; lia).
  split; [exact F1|]. split; [exact F3|]. split; [exact F4|].
  split; [exact F5|]. split; [exact F2|].
  rewrite F2. discriminate.
Qed.

(** C4: with the default configuration (incrementBits 12, processBits 5,
    workerBits 5, epoch 1420070400000), as [new Catflake()] and as
    [new Catflake] of these four values, [deconstruct] of the decimal text
    397282797158964394 gives timestamp 1514790000000, workerId 4,
    processId 9 and increment 3242. *)
Theorem deconstruct_example (rev : revision) (now : Z) :
  exists c,
    new_Catflake rev Supplied.empty now = Ok c
    /\ new_Catflake rev
         (Supplied.mk (Some 1420070400000) (Some 12%N) (Some 5%N) (Some 5%N)
                      None None None None [])
         now = Ok c
    /\ Options.incrementBits (options c) = 12%N
    /\ Options.processBits (options c) = 5%N
    /\ Options.workerBits (options c) = 5%N
    /\ Options.epoch (options c) = 1420070400000
    /\ deconstruct c (Str "397282797158964394")
       = Ok (Deconstructed.mk 1514790000000 4 9 3242).
Proof.
  eexists. split; [destruct rev; reflexivity|].
  split; [destruct rev; reflexivity|].
  repeat (split; [reflexivity|]).
  vm_compute. reflexivity.
Qed.

(** ** The increment field *)

(** the increment field read back from a snowflake is the increment that
    was packed, whatever the other fields are *)
Lemma increment_field (rev : revision) (o : Options.t) (now : Z)
    (c : Catflake) (t i : Z) :
  constructor rev o now = Ok c ->
  0 <= i < pow2 (Options.incrementBits (options c)) ->
  exists d,
    deconstruct c (stringified c (pack c t i)) = Ok d
    /\ Deconstructed.increment d = i.
Proof.
  intros H Hi. rewrite pack_eq. apply constructor_Ok in H.
  destruct H as (Hsum & wid & pid & _ & _ & ->).
  cbn [options workerId processId Options.epoch Options.incrementBits] in *.
  rewrite deconstruct_stringified, deconstruct_Big.
  eexists. split; [reflexivity|].
  cbn [Deconstructed.increment options Options.incrementBits].
  set (ib := Options.incrementBits o) in *.
  set (pb := Options.processBits o) in *.
  set (wb := Options.workerBits o) in *.
  assert (E22 : pow2 22 = pow2 (pb + wb) * pow2 ib).
  { rewrite <- Hsum, <- N.add_assoc, pow2_add. ring. }
  rewrite E22, (pow2_add ib pb).
  replace ((t - Options.epoch o) * (pow2 (pb + wb) * pow2 ib)
           + wid * (pow2 ib * pow2 pb) + pid * pow2 ib + i)
    with (((t - Options.epoch o) * pow2 (pb + wb) + wid * pow2 pb + pid)
          * pow2 ib + i) by ring.
  apply packed_low. exact Hi.
Qed.

(** a sequential call: lines 93-99 with both arguments left out *)
Lemma _generate_sequential (w : world) :
  Mutable.frozen (mutable (this w)) = false ->
  maxIncrement (this w) <> 0 ->
  let i := Z.rem (Mutable.increment (mutable (this w)) + 1)
                 (maxIncrement (this w)) in
  _generate None None w
  = (Ok (stringified (this w) (pack (this w) (clock w (reads w)) i)),
     with_mutable (Mutable.set_increment i) (tick w)).
Proof.
  intros Hf Hm i. unfold _generate, bind, get_this, Date_now.
  pose proof (get_increment_run (tick w) Hf Hm) as G. cbv zeta in G.
  cbn [tick this] in G. cbn [tick this]. rewrite G. reflexivity.
Qed.

(** ** What stays fixed while an instance runs *)

Lemma runs_fields (c0 : Catflake) (w : world) :
  runs c0 w ->
  options (this w) = options c0
  /\ maxIncrement (this w) = maxIncrement c0
  /\ workerId (this w) = workerId c0
  /\ processId (this w) = processId c0
  /\ frozen (this w) = frozen c0.
Proof. intros [H _]. rewrite H. repeat split. Qed.

Lemma runs_with_mutable (c0 : Catflake) (w : world)
    (upd : Mutable.t -> Mutable.t) :
  runs c0 w ->
  Mutable.frozen (upd (mutable (this w))) = false ->
  runs c0 (with_mutable upd w).
Proof.
  intros [H _] Hf. split; [|exact Hf].
  unfold with_mutable. cbn [this set_this]. rewrite H. reflexivity.
Qed.

Lemma runs_tick (c0 : Catflake) (w : world) : runs c0 w -> runs c0 (tick w).
Proof. intros H. exact H. Qed.

Lemma stringified_runs (c0 : Catflake) (w : world) (F : Z) :
  runs c0 w -> stringified (this w) F = stringified c0 F.
Proof.
  intros H. apply runs_fields in H. destruct H as (Ho & _).
  unfold stringified. rewrite Ho. reflexivity.
Qed.

Lemma pack_runs (c0 : Catflake) (w : world) (d i : Z) :
  runs c0 w -> pack (this w) d i = pack c0 d i.
Proof.
  intros H. apply runs_fields in H. destruct H as (Ho & _ & Hw & Hp & _).
  unfold pack. rewrite Ho, Hw, Hp. reflexivity.
Qed.

Lemma constructor_maxIncrement (rev : revision) (o : Options.t) (now : Z)
    (c : Catflake) :
  constructor rev o now = Ok c ->
  maxIncrement c = pow2 (Options.incrementBits (options c)).
Proof.
  intros H. apply constructor_Ok in H.
  destruct H as (_ & wid & pid & _ & _ & ->). reflexivity.
Qed.

(** ** Sequential mode *)

(** C7: in sequential mode, a call of [generate()] on an instance whose
    stored increment is the seed -1 or not negative stores
    (increment + 1) mod 2^incrementBits and packs it, whatever the clock and
    the stored last timestamp are; from the stored increment
    2^incrementBits - 1 the snowflake produced has the increment field 0. *)
Theorem sequential_increment (rev : revision) (o : Options.t) (now : Z)
    (c0 : Catflake) (w : world) :
  constructor rev o now = Ok c0 ->
  Options.async (options c0) = false ->
  runs c0 w ->
  -1 <= Mutable.increment (mutable (this w)) ->
  let i := (Mutable.increment (mutable (this w)) + 1)
           mod pow2 (Options.incrementBits (options c0)) in
  exists flake w' d,
    generate w = (Ok (Done flake), w')
    /\ flake = stringified c0 (pack c0 (clock w (reads w)) i)
    /\ runs c0 w'
    /\ Mutable.increment (mutable (this w')) = i
    /\ Mutable.lastTimestamp (mutable (this w'))
       = Mutable.lastTimestamp (mutable (this w))
    /\ deconstruct c0 flake = Ok d
    /\ Deconstructed.increment d = i
    /\ (Mutable.increment (mutable (this w))
        = pow2 (Options.incrementBits (options c0)) - 1 ->
        Deconstructed.increment d = 0).
Proof.
  intros Hc Ha Hr Hinc i.
  pose proof (runs_fields c0 w Hr) as (Ho & Hm & Hw & Hp & _).
  pose proof (constructor_maxIncrement _ _ _ _ Hc) as Hmax.
  pose proof (pow2_pos (Options.incrementBits (options c0))) as Hpos.
  assert (Hi : 0 <= i < pow2 (Options.incrementBits (options c0)))
    by (apply Z.mod_pos_bound; exact Hpos).
  destruct (increment_field rev o now c0 (clock w (reads w)) i Hc Hi)
    as (d & Hd & Hdi).
  destruct Hr as [Hthis Hf].
  assert (Hm0 : maxIncrement (this w) <> 0) by lia.
  pose proof (_generate_sequential w Hf Hm0) as G. cbv zeta in G.
  rewrite Hm, Hmax, Z.rem_mod_nonneg in G by lia. fold i in G.
  rewrite (stringified_runs c0 w) in G by (split; assumption).
  rewrite (pack_runs c0 w) in G by (split; assumption).
  eexists _, _, d. split.
  { unfold generate, bind, get_this. rewrite Ho, Ha, G. reflexivity. }
  split; [reflexivity|]. split.
  { apply runs_with_mutable; [split; assumption|]. exact Hf. }
  split; [reflexivity|]. split; [reflexivity|].
  split; [exact Hd|]. split; [exact Hdi|].
  intros E. rewrite Hdi. unfold i. rewrite E.
  replace (pow2 (Options.incrementBits (options c0)) - 1 + 1)
    with (pow2 (Options.incrementBits (options c0))) by ring.
  apply Z.mod_same. lia.
Qed.

(** ** The lock *)

Lemma _lock_free (w : world) :
  Mutable.frozen (mutable (this w)) = false ->
  Mutable.locked (mutable (this w)) = false ->
  _lock w = (Ok None, with_mutable (Mutable.set_locked true) w).
Proof.
  intros Hf Hl. unfold _lock, bind, get_this. rewrite Hl.
  rewrite update_mutable_run by exact Hf. reflexivity.
Qed.

Lemma _lock_held (w : world) :
  Mutable.frozen (mutable (this w)) = false ->
  Mutable.locked (mutable (this w)) = true ->
  _lock w
  = (Ok (Some (promises w)),
     with_mutable
       (Mutable.set_locks (Mutable.locks (mutable (this w)) ++ [promises w]))
       (alloc w)).
Proof.
  intros Hf Hl. unfold _lock, bind, get_this, new_Promise. rewrite Hl.
  reflexivity.
Qed.

Lemma _unlock_empty (w : world) :
  Mutable.frozen (mutable (this w)) = false ->
  Mutable.locks (mutable (this w)) = [] ->
  _unlock w = (Ok tt, with_mutable (Mutable.set_locked false) w).
Proof.
  intros Hf Hl. unfold _unlock, bind, get_this. rewrite Hl.
  apply update_mutable_run. exact Hf.
Qed.

Lemma _unlock_queued (w : world) (p : promise) (rest : list promise) :
  Mutable.frozen (mutable (this w)) = false ->
  Mutable.locks (mutable (this w)) = p :: rest ->
  _unlock w = (Ok tt, wake p (with_mutable (Mutable.set_locks rest) w)).
Proof.
  intros Hf Hl. unfold _unlock, bind, get_this. rewrite Hl.
  reflexivity.
Qed.

Lemma _unlock_Ok (w : world) :
  Mutable.frozen (mutable (this w)) = false -> fst (_unlock w) = Ok tt.
Proof.
  intros Hf. destruct (Mutable.locks (mutable (this w))) as [|p rest] eqn:Hk.
  - rewrite (_unlock_empty w Hf Hk). reflexivity.
  - rewrite (_unlock_queued w p rest Hf Hk). reflexivity.
Qed.

(** ** Concurrent mode, one call *)

Lemma _generate_passed (w : world) (now i : Z) :
  _generate (Some now) (Some i) w
  = (Ok (stringified (this w) (pack (this w) (fst (date_used now w)) i)),
     snd (date_used now w)).
Proof.
  unfold _generate, date_used, bind, get_this, ret, Date_now.
  destruct (now =? 0); reflexivity.
Qed.

Lemma date_used_this (now : Z) (w : world) :
  this (snd (date_used now w)) = this w.
Proof. unfold date_used. destruct (now =? 0); reflexivity. Qed.

Lemma date_used_nonzero (now : Z) (w : world) :
  now <> 0 -> date_used now w = (now, w).
Proof.
  intros H. unfold date_used. apply Z.eqb_neq in H. rewrite H. reflexivity.
Qed.

Lemma _generateAsync_finish_run (w : world) (now : Z) :
  Mutable.frozen (mutable (this w)) = false ->
  _generateAsync_finish now w
  = (Ok (Done (stringified (this w)
                 (pack (this w) (fst (date_used now w))
                       (Mutable.increment (mutable (this w)))))),
     snd (_unlock (snd (date_used now w)))).
Proof.
  intros Hf.
  unfold _generateAsync_finish, bind, get_this. rewrite _generate_passed.
  assert (U : fst (_unlock (snd (date_used now w))) = Ok tt)
    by (apply _unlock_Ok; rewrite date_used_this; exact Hf).
  destruct (_unlock (snd (date_used now w))) as [r w']. simpl in U.
  rewrite U. reflexivity.
Qed.

Lemma _generateAsync_slept_run (w : world) :
  Mutable.frozen (mutable (this w)) = false ->
  _generateAsync_slept w
  = _generateAsync_finish (clock w (reads w)) (adopted (clock w (reads w)) w).
Proof.
  intros Hf. unfold _generateAsync_slept, bind, Date_now.
  rewrite update_mutable_run by exact Hf.
  rewrite update_mutable_run by exact Hf. reflexivity.
Qed.

Lemma _generateAsync_locked_fresh (w : world) :
  Mutable.frozen (mutable (this w)) = false ->
  Mutable.lastTimestamp (mutable (this w)) <> clock w (reads w) ->
  _generateAsync_locked w
  = _generateAsync_finish (clock w (reads w)) (adopted (clock w (reads w)) w).
Proof.
  intros Hf Hne. unfold _generateAsync_locked, bind, Date_now, get_this.
  cbn [tick this]. apply Z.eqb_neq in Hne. rewrite Hne. cbn [negb].
  rewrite update_mutable_run by exact Hf.
  rewrite update_mutable_run by exact Hf. reflexivity.
Qed.

Lemma _generateAsync_locked_same (w : world) :
  Mutable.frozen (mutable (this w)) = false ->
  Mutable.lastTimestamp (mutable (this w)) = clock w (reads w) ->
  _generateAsync_locked w
  = if maxIncrement (this w) <=? Mutable.increment (mutable (this w)) + 1
    then (Ok (Await (AwaitSleep 2)), advanced w)
    else _generateAsync_finish (clock w (reads w)) (advanced w).
Proof.
  intros Hf He. unfold _generateAsync_locked, bind, Date_now, get_this.
  cbn [tick this]. apply Z.eqb_eq in He. rewrite He. cbn [negb].
  rewrite update_mutable_run by exact Hf.
  fold (advanced w). unfold BigInt.greaterOrEquals.
  replace (maxIncrement (this (advanced w))) with (maxIncrement (this w))
    by (destruct w as [[? [] ? ? ? ? ?] ? ? ? ?]; reflexivity).
  replace (Mutable.increment (mutable (this (advanced w))))
    with (Mutable.increment (mutable (this w)) + 1)
    by (destruct w as [[? [] ? ? ? ? ?] ? ? ? ?]; reflexivity).
  destruct (maxIncrement (this w) <=? Mutable.increment (mutable (this w)) + 1);
    reflexivity.
Qed.



(** [_unlock] touches the lock only *)
Lemma _unlock_keeps (c0 : Catflake) (w : world) :
  runs c0 w ->
  runs c0 (snd (_unlock w))
  /\ Mutable.increment (mutable (this (snd (_unlock w))))
     = Mutable.increment (mutable (this w))
  /\ Mutable.lastTimestamp (mutable (this (snd (_unlock w))))
     = Mutable.lastTimestamp (mutable (this w)).
Proof.
  intros [Hthis Hf].
  destruct (Mutable.locks (mutable (this w))) as [|p rest] eqn:Hk.
  - rewrite (_unlock_empty w Hf Hk).
    split; [|split; reflexivity].
    apply runs_with_mutable; [split; assumption|exact Hf].
  - rewrite (_unlock_queued w p rest Hf Hk).
    split; [|split; reflexivity].
    apply (runs_with_mutable c0 w (Mutable.set_locks rest));
      [split; assumption|exact Hf].
Qed.

Lemma runs_adopted (c0 : Catflake) (w : world) (now : Z) :
  runs c0 w -> runs c0 (adopted now w).
Proof.
  intros H. unfold adopted.
  apply runs_with_mutable; [apply runs_with_mutable|]; apply H.
Qed.

Lemma runs_advanced (c0 : Catflake) (w : world) :
  runs c0 w -> runs c0 (advanced w).
Proof. intros H. unfold advanced. apply runs_with_mutable; apply H. Qed.

(** a call that finishes with a date that is not 0 *)
Lemma finish_nonzero (c0 : Catflake) (w : world) (now : Z) :
  runs c0 w -> now <> 0 ->
  exists w',
    _generateAsync_finish now w
    = (Ok (Done (stringified c0
                   (pack c0 now (Mutable.increment (mutable (this w)))))),
       w')
    /\ runs c0 w'
    /\ Mutable.increment (mutable (this w'))
       = Mutable.increment (mutable (this w))
    /\ Mutable.lastTimestamp (mutable (this w'))
       = Mutable.lastTimestamp (mutable (this w)).
Proof.
  intros Hr Hn. rewrite _generateAsync_finish_run by apply Hr.
  rewrite (date_used_nonzero now w Hn). cbn [fst snd].
  rewrite (stringified_runs c0 w), (pack_runs c0 w) by exact Hr.
  eexists. split; [reflexivity|]. apply _unlock_keeps. exact Hr.
Qed.

(** C6: in concurrent mode, a call that holds the critical section reads
    the clock.  If the reading differs from the stored last timestamp, it
    is stored and the increment is reset to 0.  If it is equal, the
    increment is advanced by 1; when that value reaches 2^incrementBits the
    call waits for [sleep(2)], and when it resumes it reads the clock again,
    stores that reading and resets the increment to 0.  The snowflake is
    packed from the timestamp and the increment so stored: the increment
    packed is 0 or below 2^incrementBits, and a reset of the increment comes
    with the timestamp just read. *)
Theorem concurrent_call (rev : revision) (o : Options.t) (now0 : Z)
    (c0 : Catflake) (w : world) :
  constructor rev o now0 = Ok c0 ->
  runs c0 w ->
  let now := clock w (reads w) in
  let inc := Mutable.increment (mutable (this w)) in
  let last := Mutable.lastTimestamp (mutable (this w)) in
  let max := pow2 (Options.incrementBits (options c0)) in
  now <> 0 ->
  (last <> now ->
   exists w',
     _generateAsync_locked w
     = (Ok (Done (stringified c0 (pack c0 now 0))), w')
     /\ runs c0 w'
     /\ Mutable.lastTimestamp (mutable (this w')) = now
     /\ Mutable.increment (mutable (this w')) = 0)
  /\ (last = now -> inc + 1 < max ->
      exists w',
        _generateAsync_locked w
        = (Ok (Done (stringified c0 (pack c0 now (inc + 1)))), w')
        /\ runs c0 w'
        /\ Mutable.lastTimestamp (mutable (this w')) = now
        /\ Mutable.increment (mutable (this w')) = inc + 1)
  /\ (last = now -> max <= inc + 1 ->
      exists w1,
        _generateAsync_locked w = (Ok (Await (AwaitSleep 2)), w1)
        /\ runs c0 w1
        /\ Mutable.increment (mutable (this w1)) = inc + 1
        /\ section_state w1 = section_state w
        /\ resolved w1 = resolved w
        /\ forall w2,
             runs c0 w2 ->
             let now2 := clock w2 (reads w2) in
             now2 <> 0 ->
             exists w',
               resume (AwaitSleep 2) w2
               = (Ok (Done (stringified c0 (pack c0 now2 0))), w')
               /\ runs c0 w'
               /\ Mutable.lastTimestamp (mutable (this w')) = now2
               /\ Mutable.increment (mutable (this w')) = 0).
Proof.
  intros Hc Hr now inc last max Hn.
  pose proof (constructor_maxIncrement _ _ _ _ Hc) as Hmax.
  pose proof (runs_fields c0 w Hr) as (_ & Hm & _).
  assert (Hf : Mutable.frozen (mutable (this w)) = false) by apply Hr.
  split; [|split].
  - intros Hne. rewrite (_generateAsync_locked_fresh w Hf Hne).
    destruct (finish_nonzero c0 (adopted now w) now
                (runs_adopted c0 w now Hr) Hn)
      as (w' & E & Hr' & Hi & Hl).
    exists w'. fold now. rewrite E. repeat split; try apply Hr'.
    + rewrite Hl. reflexivity.
    + rewrite Hi. reflexivity.
  - intros He Hlt. rewrite (_generateAsync_locked_same w Hf He).
    rewrite Hm, Hmax. fold inc max.
    destruct (max <=? inc + 1) eqn:E0; [apply Z.leb_le in E0; lia|].
    destruct (finish_nonzero c0 (advanced w) now (runs_advanced c0 w Hr) Hn)
      as (w' & E & Hr' & Hi & Hl).
    exists w'. fold now. rewrite E. repeat split; try apply Hr'.
    + rewrite Hl. exact He.
    + rewrite Hi. reflexivity.
  - intros He Hge. rewrite (_generateAsync_locked_same w Hf He).
    rewrite Hm, Hmax. fold inc max.
    destruct (max <=? inc + 1) eqn:E0; [|apply Z.leb_gt in E0; lia].
    exists (advanced w). split; [reflexivity|].
    split; [apply runs_advanced; exact Hr|].
    split; [reflexivity|]. split; [reflexivity|]. split; [reflexivity|].
    intros w2 Hr2 now2 Hn2. cbn [resume].
    rewrite (_generateAsync_slept_run w2) by apply Hr2.
    destruct (finish_nonzero c0 (adopted now2 w2) now2
                (runs_adopted c0 w2 now2 Hr2) Hn2)
      as (w' & E & Hr' & Hi & Hl).
    exists w'. fold now2. rewrite E. repeat split; try apply Hr'.
    + rewrite Hl. reflexivity.
    + rewrite Hi. reflexivity.
Qed.

(** ** Concurrent and sequential calls in the event loop *)

Lemma lock_view_date_used (now : Z) (w : world) :
  lock_view (snd (date_used now w)) = lock_view w.
Proof. unfold date_used. destruct (now =? 0); reflexivity. Qed.

Lemma runs_date_used (c0 : Catflake) (now : Z) (w : world) :
  runs c0 w -> runs c0 (snd (date_used now w)).
Proof. unfold date_used. destruct (now =? 0); intros H; exact H. Qed.

Lemma finish_general (c0 : Catflake) (w : world) (now : Z) :
  runs c0 w ->
  exists t w1,
    _generateAsync_finish now w
    = (Ok (Done (stringified c0
                   (pack c0 t (Mutable.increment (mutable (this w)))))),
       snd (_unlock w1))
    /\ runs c0 w1
    /\ lock_view w1 = lock_view w
    /\ Mutable.increment (mutable (this w1))
       = Mutable.increment (mutable (this w)).
Proof.
  intros Hr. rewrite _generateAsync_finish_run by apply Hr.
  rewrite (stringified_runs c0 w), (pack_runs c0 w) by exact Hr.
  exists (fst (date_used now w)), (snd (date_used now w)).
  split; [reflexivity|]. split; [apply runs_date_used; exact Hr|].
  split; [apply lock_view_date_used|].
  rewrite date_used_this. reflexivity.
Qed.

Lemma increment_advanced (w : world) :
  Mutable.increment (mutable (this (advanced w)))
  = Mutable.increment (mutable (this w)) + 1.
Proof. reflexivity. Qed.

Lemma increment_adopted (now : Z) (w : world) :
  Mutable.increment (mutable (this (adopted now w))) = 0.
Proof. reflexivity. Qed.

Lemma lastTimestamp_adopted (now : Z) (w : world) :
  Mutable.lastTimestamp (mutable (this (adopted now w))) = now.
Proof. reflexivity. Qed.

(** a call that wakes from its sleep returns a snowflake with increment 0 *)
Lemma slept_body (c0 : Catflake) (w : world) :
  runs c0 w ->
  exists t w1,
    _generateAsync_slept w
    = (Ok (Done (stringified c0 (pack c0 t 0))), snd (_unlock w1))
    /\ runs c0 w1
    /\ lock_view w1 = lock_view w
    /\ Mutable.increment (mutable (this w1)) = 0.
Proof.
  intros Hr. rewrite (_generateAsync_slept_run w) by apply Hr.
  destruct (finish_general c0 (adopted (clock w (reads w)) w)
              (clock w (reads w)) (runs_adopted c0 w _ Hr))
    as (t & w1 & E1 & Hr1 & Hv & Hi).
  exists t, w1. rewrite E1. split; [reflexivity|].
  split; [exact Hr1|]. split; [rewrite Hv; reflexivity|].
  rewrite Hi. reflexivity.
Qed.

Lemma Inv_boot (rev : revision) (o : Options.t) (now : Z) (c : Catflake)
    (clock : nat -> Z) :
  constructor rev o now = Ok c -> Inv c (boot c clock).
Proof.
  intros H. pose proof (runs_start rev o now c clock H) as Hr.
  apply constructor_Ok in H. destruct H as (_ & wid & pid & _ & _ & ->).
  split; [exact Hr|]. split; [reflexivity|]. split.
  - cbn. split; [constructor|]. split; intros p [].
  - cbn. pose proof (pow2_pos (Options.incrementBits o)). repeat split; lia.
Qed.

(** the owner releases the section: the head of the queue owns it next *)
Lemma release_Inv (c0 : Catflake) (w1 : world) :
  runs c0 w1 ->
  Options.async (options c0) = true ->
  Mutable.locked (mutable (this w1)) = true ->
  queue_inv (lock_view w1) ->
  -1 <= Mutable.increment (mutable (this w1)) < maxIncrement c0 ->
  Inv c0 (mkSystem (snd (_unlock w1))
                   (map AwaitLock (Mutable.locks (mutable (this w1))))).
Proof.
  intros Hr Ha Hl Hq Hi.
  pose proof (_unlock_keeps c0 w1 Hr) as (Hr' & Hinc & _).
  assert (Hf : Mutable.frozen (mutable (this w1)) = false) by apply Hr.
  split; [exact Hr'|]. split; [rewrite Ha; discriminate|].
  cbn [world_of suspended]. rewrite Hinc. clear Hr' Hinc.
  unfold lock_view, queue_inv in *.
  destruct Hq as (Hnd & Hlk & Hres).
  destruct (Mutable.locks (mutable (this w1))) as [|p rest] eqn:Hk.
  - rewrite (_unlock_empty w1 Hf Hk). cbn. rewrite Hk.
    split; [|repeat split; lia].
    split; [constructor|]. split; [intros p []|exact Hres].
  - rewrite (_unlock_queued w1 p rest Hf Hk). cbn. rewrite Hl.
    inversion Hnd as [|? ? Hnp Hnd']; subst.
    split.
    + split; [exact Hnd'|]. split.
      * intros q Hq. destruct (Hlk q (or_intror Hq)) as [Hlt Hnr].
        split; [exact Hlt|]. intros [->|Hin]; [exact (Hnp Hq)|exact (Hnr Hin)].
      * intros q [<-|Hq]; [apply (Hlk p); left; reflexivity|exact (Hres q Hq)].
    + exists (AwaitLock p). split; [reflexivity|]. split; [left; reflexivity|lia].
Qed.

Lemma awaited_eqb_eq (a b : awaited) : awaited_eqb a b = true <-> a = b.
Proof.
  destruct a as [p|s], b as [q|t]; simpl; split; try discriminate.
  - intros H. apply Nat.eqb_eq in H. congruence.
  - intros [= ->]. apply Nat.eqb_refl.
  - intros H. apply Z.eqb_eq in H. congruence.
  - intros [= ->]. apply Z.eqb_refl.
Qed.

Lemma lock_view_eq (w1 w : world) :
  lock_view w1 = lock_view w ->
  Mutable.locked (mutable (this w1)) = Mutable.locked (mutable (this w))
  /\ Mutable.locks (mutable (this w1)) = Mutable.locks (mutable (this w)).
Proof. unfold lock_view. intros [= H1 H2 _ _]. split; assumption. Qed.

Lemma owner_wakes (c0 : Catflake) (w : world) :
  Options.async (options c0) = true ->
  runs c0 w ->
  0 < maxIncrement c0 ->
  Mutable.locked (mutable (this w)) = true ->
  queue_inv (lock_view w) ->
  exists r w',
    _generateAsync_slept w = (r, w')
    /\ within_bits c0 r
    /\ (exists flake, r = Ok (Done flake))
    /\ Inv c0 (mkSystem w'
                 (map AwaitLock (Mutable.locks (mutable (this w))))).
Proof.
  intros Ha Hr Hpos Hl Hq.
  destruct (slept_body c0 w Hr) as (t & w1 & E & Hr1 & Hv & Hi1).
  rewrite E. eexists _, _. split; [reflexivity|].
  destruct (lock_view_eq w1 w Hv) as [Hl1 Hk1].
  split; [cbn; exists t, 0; split; [reflexivity|lia]|].
  split; [eauto|]. rewrite <- Hk1.
  apply release_Inv; trivial; try congruence; try lia.
Qed.

(** *** One constructed instance

    The lemmas of this section are about an instance [c0] that the
    constructor has returned. *)

Section Constructed.

Variables (rev : revision) (o : Options.t) (now0 : Z) (c0 : Catflake).
Hypothesis Hc : constructor rev o now0 = Ok c0.

(** a call that holds the lock: it returns a snowflake whose increment is
    within its bits, or it sleeps with the stored increment at the bound *)
Lemma locked_body (w : world) :
  runs c0 w ->
  -1 <= Mutable.increment (mutable (this w)) < maxIncrement c0 ->
  (exists t w1,
      _generateAsync_locked w
      = (Ok (Done (stringified c0
                     (pack c0 t (Mutable.increment (mutable (this w1)))))),
         snd (_unlock w1))
      /\ runs c0 w1
      /\ lock_view w1 = lock_view w
      /\ 0 <= Mutable.increment (mutable (this w1)) < maxIncrement c0)
  \/ (exists w1,
         _generateAsync_locked w = (Ok (Await (AwaitSleep 2)), w1)
         /\ runs c0 w1
         /\ lock_view w1 = lock_view w
         /\ Mutable.increment (mutable (this w1)) = maxIncrement c0).
Proof.
  intros Hr Hinc.
  pose proof (runs_fields c0 w Hr) as (_ & Hm & _).
  pose proof (constructor_maxIncrement _ _ _ _ Hc) as Hmax.
  pose proof (pow2_pos (Options.incrementBits (options c0))) as Hpos.
  assert (Hf : Mutable.frozen (mutable (this w)) = false) by apply Hr.
  destruct (Z.eq_dec (Mutable.lastTimestamp (mutable (this w)))
                     (clock w (reads w))) as [He|Hne].
  - rewrite (_generateAsync_locked_same w Hf He), Hm.
    destruct (maxIncrement c0 <=? Mutable.increment (mutable (this w)) + 1)
      eqn:E.
    + right. apply Z.leb_le in E. exists (advanced w).
      split; [reflexivity|]. split; [apply runs_advanced; exact Hr|].
      split; [reflexivity|]. rewrite increment_advanced. lia.
    + left. apply Z.leb_gt in E.
      destruct (finish_general c0 (advanced w) (clock w (reads w))
                  (runs_advanced c0 w Hr)) as (t & w1 & E1 & Hr1 & Hv & Hi).
      exists t, w1. rewrite E1, Hi. split; [reflexivity|].
      split; [exact Hr1|]. split; [rewrite Hv; reflexivity|].
      rewrite increment_advanced. lia.
  - left. rewrite (_generateAsync_locked_fresh w Hf Hne).
    destruct (finish_general c0 (adopted (clock w (reads w)) w)
                (clock w (reads w)) (runs_adopted c0 w _ Hr))
      as (t & w1 & E1 & Hr1 & Hv & Hi).
    exists t, w1. rewrite E1, Hi. split; [reflexivity|].
    split; [exact Hr1|]. split; [rewrite Hv; reflexivity|].
    rewrite increment_adopted. lia.
Qed.

(** a call of [generate()] in sequential mode *)
Lemma fire_Call_sequential (s : system) (r : result completion) (s' : system) :
  Options.async (options c0) = false ->
  Inv c0 s ->
  fire Call s = Some (r, s') ->
  Inv c0 s' /\ within_bits c0 r.
Proof.
  intros Ha (Hr & Hsync & Hq & Hph) Hfire.
  destruct s as [w susp]. cbn [world_of suspended] in *.
  pose proof (runs_fields c0 w Hr) as (Ho & Hm & _).
  pose proof (constructor_maxIncrement _ _ _ _ Hc) as Hmax.
  pose proof (pow2_pos (Options.incrementBits (options c0))) as Hpos.
  assert (Hf : Mutable.frozen (mutable (this w)) = false) by apply Hr.
  specialize (Hsync Ha).
  unfold phase_inv, lock_view in Hph. rewrite Hsync in Hph.
  destruct Hph as (Hk & Hs & Hi).
  assert (Hm0 : maxIncrement (this w) <> 0) by lia.
  pose proof (_generate_sequential w Hf Hm0) as G. cbv zeta in G.
  rewrite (stringified_runs c0 w), (pack_runs c0 w) in G by exact Hr.
  rewrite Hm in G.
  unfold fire, generate, bind, get_this in Hfire. cbn [world_of] in Hfire.
  rewrite Ho, Ha, G in Hfire. cbn in Hfire. injection Hfire as <- <-.
  pose proof (Z.rem_bound_pos
                (Mutable.increment (mutable (this w)) + 1) (maxIncrement c0))
    as Hb.
  split.
  - split; [apply runs_with_mutable; [exact Hr|exact Hf]|].
    split; [intros _; exact Hsync|].
    split; [exact Hq|].
    cbn [world_of suspended]. unfold phase_inv.
    change (lock_view
              (with_mutable
                 (Mutable.set_increment
                    (Z.rem (Mutable.increment (mutable (this w)) + 1)
                           (maxIncrement c0))) (tick w)))
      with (lock_view w).
    unfold lock_view. rewrite Hsync. repeat split; trivial; cbn; lia.
  - cbn. eexists _, _. split; [reflexivity|]. lia.
Qed.

(** a call that holds the section comes to an end or to its sleep: the
    system after, with [behind] the suspended calls behind the owner *)
Lemma owner_goes_on (w : world) :
  Options.async (options c0) = true ->
  runs c0 w ->
  Mutable.locked (mutable (this w)) = true ->
  queue_inv (lock_view w) ->
  -1 <= Mutable.increment (mutable (this w)) < maxIncrement c0 ->
  exists r w',
    _generateAsync_locked w = (r, w')
    /\ within_bits c0 r
    /\ Inv c0 (mkSystem w'
                 (match r with
                  | Ok (Await a) => [a]
                  | _ => []
                  end ++ map AwaitLock (Mutable.locks (mutable (this w))))).
Proof.
  intros Ha Hr Hl Hq Hi.
  destruct (locked_body w Hr Hi)
    as [(t & w1 & E & Hr1 & Hv & Hi1)|(w1 & E & Hr1 & Hv & Hi1)];
    rewrite E; eexists _, _; (split; [reflexivity|]);
    destruct (lock_view_eq w1 w Hv) as [Hl1 Hk1].
  - split; [cbn; eauto|]. cbn [app]. rewrite <- Hk1.
    apply release_Inv; trivial; try congruence; try lia.
  - split; [exact I|]. cbn [app].
    split; [exact Hr1|]. split; [rewrite Ha; discriminate|].
    cbn [world_of suspended]. rewrite Hv. split; [exact Hq|].
    unfold phase_inv, lock_view. rewrite Hl.
    exists (AwaitSleep 2). repeat split. exact Hi1.
Qed.

(** a call of [generate()] in concurrent mode *)
Lemma fire_Call_concurrent (s : system) (r : result completion) (s' : system) :
  Options.async (options c0) = true ->
  Inv c0 s ->
  fire Call s = Some (r, s') ->
  Inv c0 s' /\ within_bits c0 r.
Proof.
  intros Ha (Hr & Hsync & Hq & Hph) Hfire.
  destruct s as [w susp]. cbn [world_of suspended] in *.
  pose proof (runs_fields c0 w Hr) as (Ho & Hm & _).
  assert (Hf : Mutable.frozen (mutable (this w)) = false) by apply Hr.
  unfold fire, generate, bind, get_this in Hfire. cbn [world_of] in Hfire.
  rewrite Ho, Ha in Hfire. unfold _generateAsync, bind in Hfire.
  unfold phase_inv in Hph. unfold lock_view in Hph at 1.
  destruct (Mutable.locked (mutable (this w))) eqn:Hl.
  - (* the section is held: the caller joins the queue *)
    rewrite (_lock_held w Hf Hl) in Hfire. cbn in Hfire.
    injection Hfire as <- <-.
    split; [|exact I].
    destruct Hph as (owner & Hs & Hown).
    unfold queue_inv, lock_view in Hq. destruct Hq as (Hnd & Hlk & Hres).
    split; [apply (runs_with_mutable c0 (alloc w)); [exact Hr|exact Hf]|].
    split; [rewrite Ha; discriminate|].
    cbn [world_of suspended]. split.
    + unfold queue_inv, lock_view. cbn. split; [|split].
      * apply NoDup_app; [exact Hnd|repeat constructor; intros []|].
        intros p Hp [E|[]]. destruct (Hlk p Hp) as [Hlt _]. lia.
      * intros p Hp. apply in_app_or in Hp. destruct Hp as [Hp|[E|[]]].
        -- destruct (Hlk p Hp). split; [lia|assumption].
        -- split; [lia|]. intros Hin. apply Hres in Hin. lia.
      * intros p Hp. apply Hres in Hp. lia.
    + unfold phase_inv, lock_view. cbn. rewrite Hl.
      exists owner. rewrite Hs, map_app. split; [reflexivity|exact Hown].
  - (* the section is free: the caller takes it *)
    rewrite (_lock_free w Hf Hl) in Hfire.
    destruct Hph as (Hk & Hs & Hi).
    set (w1 := with_mutable (Mutable.set_locked true) w) in *.
    assert (Hr1 : runs c0 w1)
      by (apply runs_with_mutable; [exact Hr|exact Hf]).
    assert (Hq1 : queue_inv (lock_view w1)).
    { unfold queue_inv, lock_view in *. exact Hq. }
    destruct (owner_goes_on w1 Ha Hr1 eq_refl Hq1 Hi)
      as (r1 & w' & E & Hwb & HI).
    rewrite E in Hfire. injection Hfire as <- <-.
    split; [|exact Hwb].
    replace (Mutable.locks (mutable (this w1))) with (@nil promise) in HI
      by (symmetry; exact Hk).
    subst susp. cbn [map] in HI. rewrite app_nil_r in HI.
    destruct r1 as [[flake|a]|e]; exact HI.
Qed.

(** a suspended call goes on *)
Lemma fire_Resume (a : awaited) (s : system) (r : result completion)
    (s' : system) :
  Inv c0 s ->
  fire (Resume a) s = Some (r, s') ->
  Inv c0 s' /\ within_bits c0 r.
Proof.
  intros (Hr & Hsync & Hq & Hph) Hfire.
  destruct s as [w susp]. cbn [world_of suspended] in *.
  pose proof (constructor_maxIncrement _ _ _ _ Hc) as Hmax.
  pose proof (pow2_pos (Options.incrementBits (options c0))) as Hpos.
  unfold fire in Hfire. cbn [world_of suspended] in Hfire.
  destruct (existsb (awaited_eqb a) susp && ready a w) eqn:En;
    [|discriminate].
  apply andb_true_iff in En. destruct En as [Hin Hrd].
  apply existsb_exists in Hin. destruct Hin as (b & Hb & Hab).
  apply awaited_eqb_eq in Hab. subst b.
  unfold phase_inv in Hph. unfold lock_view in Hph at 1.
  destruct (Mutable.locked (mutable (this w))) eqn:Hl.
  2: { destruct Hph as (_ & -> & _). destruct Hb. }
  assert (Ha : Options.async (options c0) = true).
  { destruct (Options.async (options c0)); [reflexivity|].
    specialize (Hsync eq_refl). congruence. }
  destruct Hph as (owner & Hs & Hown).
  assert (Hao : a = owner).
  { rewrite Hs in Hb. destruct Hb as [Hb|Hb]; [congruence|].
    apply in_map_iff in Hb. destruct Hb as (q & <- & Hq').
    exfalso. unfold queue_inv, lock_view in Hq.
    destruct Hq as (_ & Hlk & _). destruct (Hlk q Hq') as [_ Hnr].
    apply Hnr. cbn in Hrd. apply existsb_exists in Hrd.
    destruct Hrd as (x & Hx & Hqx). apply Nat.eqb_eq in Hqx.
    subst x. exact Hx. }
  subst a. rewrite Hs in Hfire. cbn [settle] in Hfire.
  rewrite (proj2 (awaited_eqb_eq owner owner) eq_refl) in Hfire.
  destruct owner as [p|time].
  - destruct Hown as [_ Hi]. cbn [resume] in Hfire.
    destruct (owner_goes_on w Ha Hr Hl Hq Hi)
      as (r1 & w' & E & Hwb & HI).
    rewrite E in Hfire. injection Hfire as <- <-.
    split; [|exact Hwb]. destruct r1 as [[flake|a]|e]; exact HI.
  - cbn [resume] in Hfire.
    destruct (owner_wakes c0 w Ha Hr ltac:(lia) Hl Hq)
      as (r1 & w' & E & Hwb & (flake & ->) & HI).
    rewrite E in Hfire. injection Hfire as <- <-.
    split; [exact HI|exact Hwb].
Qed.

(** every event keeps the invariant, and what the call comes to is within
    the bits *)
Lemma fire_Inv (e : event) (s : system) (r : result completion) (s' : system) :
  Inv c0 s ->
  fire e s = Some (r, s') ->
  Inv c0 s' /\ within_bits c0 r.
Proof.
  intros HI Hfire. destruct e as [|a].
  - destruct (Options.async (options c0)) eqn:Ha.
    + exact (fire_Call_concurrent s r s' Ha HI Hfire).
    + exact (fire_Call_sequential s r s' Ha HI Hfire).
  - exact (fire_Resume a s r s' HI Hfire).
Qed.

Lemma run_Inv (es : list event) (s : system) :
  Inv c0 s ->
  Inv c0 (snd (run es s)) /\ Forall (within_bits c0) (fst (run es s)).
Proof.
  revert s. induction es as [|e es IH]; intros s HI.
  - split; [exact HI|constructor].
  - cbn [run]. destruct (fire e s) as [[r s']|] eqn:E.
    + destruct (fire_Inv e s r s' HI E) as [HI' Hr].
      specialize (IH s' HI'). destruct (run es s') as [rs s''].
      cbn [fst snd] in *. destruct IH as [IH1 IH2].
      split; [exact IH1|constructor; assumption].
    + apply IH. exact HI.
Qed.

(** the hypotheses of the lemmas on the lock and on the sequential call
    hold in every state of the event loop *)
Lemma Inv_queue_ok (s : system) :
  Inv c0 s ->
  Mutable.frozen (mutable (this (world_of s))) = false
  /\ queue_ok (world_of s)
  /\ -1 <= Mutable.increment (mutable (this (world_of s))).
Proof.
  intros (Hr & _ & _ & Hph). split; [apply Hr|].
  pose proof (constructor_maxIncrement _ _ _ _ Hc) as Hmax.
  pose proof (pow2_pos (Options.incrementBits (options c0))) as Hpos.
  unfold phase_inv in Hph. unfold lock_view in Hph at 1.
  unfold queue_ok.
  destruct (Mutable.locked (mutable (this (world_of s)))).
  - split; [discriminate|].
    destruct Hph as ([p|time] & _ & Hown).
    + lia.
    + destruct Hown as [_ ->]. lia.
  - destruct Hph as (Hk & _ & Hi). split; [intros _; exact Hk|lia].
Qed.

End Constructed.

(** ** Round trip *)

(** a snowflake packed by a constructed instance whose stored ids are not
    negative is taken apart into the timestamp, the stored ids and the
    increment it was packed from *)
Lemma deconstruct_pack (rev : revision) (o : Options.t) (now : Z)
    (c : Catflake) (wid pid t i : Z) :
  constructor rev o now = Ok c ->
  Options.workerId (options c) = Int wid ->
  Options.processId (options c) = Int pid ->
  0 <= wid -> 0 <= pid ->
  0 <= i < maxIncrement c ->
  deconstruct c (stringified c (pack c t i))
  = Ok (Deconstructed.mk t wid pid i).
Proof.
  intros H Hw Hp Hw0 Hp0 Hi. rewrite pack_eq.
  apply constructor_Ok in H.
  destruct H as (Hsum & wid' & pid' & Cw & Cp & ->).
  cbn [options Options.workerId Options.processId] in Hw, Hp.
  injection Hw as ->. injection Hp as ->.
  cbn [maxIncrement] in Hi.
  apply conform_bound in Cw. apply conform_bound in Cp.
  rewrite deconstruct_stringified, deconstruct_Big.
  cbn [options workerId processId Options.epoch Options.incrementBits
       Options.processBits Options.workerBits].
  destruct (layout_arith (Options.incrementBits o) (Options.processBits o)
              (Options.workerBits o) (t - Options.epoch o) wid pid i Hsum)
    as (F1 & _ & F3 & F4 & F5); try lia.
  rewrite F1, F3, F4, F5. f_equal. f_equal. ring.
Qed.

(** every snowflake returned by a constructed instance whose stored ids are
    not negative, in sequential and in concurrent mode and under every
    schedule, is taken apart into the stored ids *)
Theorem roundtrip_ids (rev : revision) (o : Options.t) (now0 : Z)
    (c : Catflake) (clock : nat -> Z) (es : list event) (wid pid : Z) :
  constructor rev o now0 = Ok c ->
  Options.workerId (options c) = Int wid ->
  Options.processId (options c) = Int pid ->
  0 <= wid -> 0 <= pid ->
  Forall (fun r =>
            match r with
            | Ok (Done flake) =>
                exists d,
                  deconstruct c flake = Ok d
                  /\ Deconstructed.workerId d = wid
                  /\ Deconstructed.processId d = pid
            | Ok (Await _) => True
            | Throw _ => False
            end)
         (fst (run es (boot c clock))).
Proof.
  intros Hc Hw Hp Hw0 Hp0.
  destruct (run_Inv rev o now0 c Hc es (boot c clock)
              (Inv_boot rev o now0 c clock Hc)) as [_ HF].
  eapply Forall_impl; [|exact HF].
  intros [[flake|a]|e]; cbn; trivial.
  intros (t & i & -> & Hi).
  rewrite (deconstruct_pack rev o now0 c wid pid t i Hc Hw Hp Hw0 Hp0 Hi).
  eexists. split; [reflexivity|]. split; reflexivity.
Qed.

(** C1, at a worker id of -1: the value stored by the constructor is -1,
    in both listings, and the snowflake generated, in sequential and in
    concurrent mode, is taken apart into the worker id 31 and a timestamp
    one below the one packed. *)
Theorem negative_workerId_not_recovered (rev : revision) (concurrent : bool) :
  let o := Options.mk 1420070400000 12 5 5 (Int 0) (Int (-1)) concurrent true
                      [] false in
  exists c flake w' d,
    constructor rev o 1514790000000 = Ok c
    /\ Options.workerId (options c) = Int (-1)
    /\ generate (start c (fun _ => 1514790000000)) = (Ok (Done flake), w')
    /\ deconstruct c flake = Ok d
    /\ Deconstructed.workerId d = 31
    /\ Deconstructed.timestamp d = 1514789999999.
Proof.
  destruct rev, concurrent; cbv zeta;
    (eexists _, _, _, _; split; [reflexivity|]; split; [reflexivity|];
     split; [vm_compute; reflexivity|]; split; [vm_compute; reflexivity|];
     split; reflexivity).
Qed.

(** ** The error of the constructor *)

(** C3: the constructor throws the bit width error exactly when the three
    widths do not add up to 22, and then there is no instance.  With widths
    that add up to 22 listing B returns an instance, and listing A returns
    an instance or fails in [BigInt(NaN)].  An instance that was constructed
    never throws from [generate()], whatever the schedule, and
    [deconstruct] never throws the bit width error. *)
Theorem bit_width_error (rev : revision) (o : Options.t) (now : Z) :
  let sum := (Options.incrementBits o + Options.processBits o
              + Options.workerBits o)%N in
  (constructor rev o now = Throw InvalidBitWidthConfiguration
   <-> sum <> 22%N)
  /\ (sum <> 22%N -> forall c, constructor rev o now <> Ok c)
  /\ (sum = 22%N -> exists c, constructor RevB o now = Ok c)
  /\ (sum = 22%N ->
      constructor RevA o now = Throw InvalidInteger
      \/ exists c, constructor RevA o now = Ok c)
  /\ (forall c, constructor rev o now = Ok c ->
      (forall clock es,
          Forall (fun r => exists k, r = Ok k) (fst (run es (boot c clock))))
      /\ (forall v, deconstruct c v <> Throw InvalidBitWidthConfiguration)).
Proof.
  cbv zeta. split; [|split; [|split; [|split]]].
  - unfold constructor.
    destruct (Options.incrementBits o + Options.processBits o
              + Options.workerBits o =? 22)%N eqn:E; cbn [negb].
    + apply N.eqb_eq in E. split; [|intros H; contradiction].
      cbn [Options.workerId Options.processId Options.set_workerId
           Options.set_processId Options.incrementBits Options.processBits
           Options.workerBits].
      destruct (conform rev (Options.workerId o) (Options.workerBits o));
        cbn; [|discriminate].
      destruct (conform rev (Options.processId o) (Options.processBits o));
        cbn; discriminate.
    + apply N.eqb_neq in E. split; [intros _; exact E|reflexivity].
  - intros Hne c Hc. apply constructor_Ok in Hc. destruct Hc as [Hs _].
    contradiction.
  - intros Hs. unfold constructor.
    apply N.eqb_eq in Hs. rewrite Hs. cbn [negb].
    cbn [Options.workerId Options.processId Options.set_workerId
         Options.set_processId Options.incrementBits Options.processBits
         Options.workerBits].
    destruct (conform_RevB_Int (Options.workerId o) (Options.workerBits o))
      as [w ->].
    destruct (conform_RevB_Int (Options.processId o) (Options.processBits o))
      as [p ->].
    cbn. eexists. reflexivity.
  - intros Hs. unfold constructor.
    apply N.eqb_eq in Hs. rewrite Hs. cbn [negb].
    cbn [Options.workerId Options.processId Options.set_workerId
         Options.set_processId Options.incrementBits Options.processBits
         Options.workerBits].
    destruct (conform RevA (Options.workerId o) (Options.workerBits o)),
      (conform RevA (Options.processId o) (Options.processBits o)); cbn;
      [right; eexists; reflexivity|left; reflexivity..].
  - intros c Hc. split.
    + intros clock es.
      destruct (run_Inv rev o now c Hc es (boot c clock)
                  (Inv_boot rev o now c clock Hc)) as [_ HF].
      eapply Forall_impl; [|exact HF].
      intros [k|e]; cbn; [eauto|contradiction].
    + intros v. unfold deconstruct.
      destruct v as [|b|[z|]|s|z]; cbn; try discriminate.
      unfold BigInt.of_string.
      destruct (NilZero.int_of_string s); cbn; discriminate.
Qed.

(** ** The ids stored by the constructor *)

(** listing B stores a supplied id that is not negative reduced modulo
    2^bits, hence within the bits, and stores 0 for an id that is no
    number *)
Lemma conform_RevB (bits : N) :
  (forall x, 0 <= x ->
     conform RevB (Int x) bits = Int (x mod pow2 bits)
     /\ 0 <= x mod pow2 bits < pow2 bits)
  /\ (forall x, conform RevB (Int x) bits = Int (Z.rem x (pow2 bits)))
  /\ conform RevB NaN bits = Int 0.
Proof.
  pose proof (pow2_pos bits) as Hp.
  assert (E : (pow2 bits =? 0) = false) by (apply Z.eqb_neq; lia).
  split; [|split].
  - intros x Hx. unfold conform, js_rem. rewrite E. cbn.
    rewrite Z.rem_mod_nonneg by lia.
    split; [reflexivity|]. apply Z.mod_pos_bound. exact Hp.
  - intros x. unfold conform, js_rem. rewrite E. reflexivity.
  - reflexivity.
Qed.

(** C5, at the inputs where the stored id is not the supplied id modulo
    2^bits: a process id of -1 is stored as -1 by both listings, where
    -1 modulo 2^5 is 31; listing A stores the process id 31 as 0, its
    divisor being 2^5 - 1, and throws on a process id that is no number
    instead of storing 0. *)
Theorem ids_not_conformed (now : Z) :
  (forall rev,
      exists c,
        constructor rev (Options.set_processId (Int (-1)) Options.defaults)
                    now = Ok c
        /\ Options.processId (options c) = Int (-1))
  /\ (exists c,
         constructor RevA (Options.set_processId (Int 31) Options.defaults)
                     now = Ok c
         /\ Options.processId (options c) = Int 0)
  /\ constructor RevA (Options.set_processId NaN Options.defaults) now
     = Throw InvalidInteger.
Proof.
  split; [|split].
  - intros rev. eexists. split; [destruct rev; reflexivity|].
    destruct rev; reflexivity.
  - eexists. split; reflexivity.
  - reflexivity.
Qed.

(** ** The increment under every schedule *)

(** C10: whatever calls are made and however the suspended ones are
    scheduled, in sequential and in concurrent mode, no call throws, and
    every snowflake returned is packed from an increment in
    [0, 2^incrementBits), which is the increment field read back from it.
    The stored increment is between -1 and 2^incrementBits; it equals
    2^incrementBits only in concurrent mode while the call that holds the
    critical section sleeps, and that call packs 0 when it wakes. *)
Theorem increment_within_bits (rev : revision) (o : Options.t) (now0 : Z)
    (c : Catflake) (clock : nat -> Z) (es : list event) :
  constructor rev o now0 = Ok c ->
  let max := pow2 (Options.incrementBits (options c)) in
  Forall (fun r =>
            match r with
            | Ok (Done flake) =>
                exists t i d,
                  flake = stringified c (pack c t i)
                  /\ 0 <= i < max
                  /\ deconstruct c flake = Ok d
                  /\ Deconstructed.increment d = i
            | Ok (Await _) => True
            | Throw _ => False
            end)
         (fst (run es (boot c clock)))
  /\ let s := snd (run es (boot c clock)) in
     let inc := Mutable.increment (mutable (this (world_of s))) in
     -1 <= inc <= max
     /\ (inc = max ->
         Options.async (options c) = true
         /\ exists behind, suspended s = AwaitSleep 2 :: behind).
Proof.
  intros Hc max.
  pose proof (constructor_maxIncrement _ _ _ _ Hc) as Hmax. fold max in Hmax.
  destruct (run_Inv rev o now0 c Hc es (boot c clock)
              (Inv_boot rev o now0 c clock Hc)) as [HI HF].
  split.
  - eapply Forall_impl; [|exact HF].
    intros [[flake|a]|e]; cbn; trivial.
    intros (t & i & -> & Hi). rewrite Hmax in Hi.
    destruct (increment_field rev o now0 c t i Hc Hi) as (d & Hd & Hdi).
    exists t, i, d. auto.
  - cbv zeta. destruct HI as (_ & Hsync & _ & Hph).
    unfold phase_inv in Hph. unfold lock_view in Hph at 1.
    rewrite Hmax in Hph.
    destruct (Mutable.locked
                (mutable (this (world_of (snd (run es (boot c clock)))))))
      eqn:Hl.
    + destruct Hph as (owner & Hs & Hown).
      destruct owner as [p|time].
      * destruct Hown as [_ Hi]. split; [lia|]. intros E. lia.
      * destruct Hown as [-> Hi].
        pose proof (pow2_pos (Options.incrementBits (options c))).
        split; [unfold max; lia|]. intros _. split.
        -- destruct (Options.async (options c)); [reflexivity|].
           specialize (Hsync eq_refl). discriminate.
        -- eauto.
    + destruct Hph as (_ & _ & Hi). split; [lia|]. intros E. lia.
Qed.

(** ** Writes from outside *)

(** C9, as amended: an assignment from outside made directly to a
    property of a constructed instance or directly to a property of its
    options, or the addition of a property to one of these two objects,
    leaves the instance as it is, at any time of its life, so [generate()]
    and [deconstruct()] go on after it as before; [this.mutable] is not
    frozen, and an assignment to one of its properties takes effect.  The
    statement is about these direct writes only: [Object.freeze] is
    shallow, and nothing is stated about a write into another object
    that a property of the instance refers to. *)
Theorem frozen_but_mutable (rev : revision) (o : Options.t) (now : Z)
    (c : Catflake) (w : world) :
  constructor rev o now = Ok c ->
  runs c w ->
  (forall upd : Catflake -> Catflake, assign upd (this w) = this w)
  /\ (forall upd : Options.t -> Options.t,
         set_options (assign upd (options (this w))) (this w) = this w)
  /\ (forall (upd : Catflake -> Catflake) v,
         generate (set_this (assign upd (this w)) w) = generate w
         /\ deconstruct (assign upd (this w)) v = deconstruct (this w) v)
  /\ (forall (upd : Options.t -> Options.t) v,
         generate
           (set_this (set_options (assign upd (options (this w))) (this w)) w)
         = generate w
         /\ deconstruct (set_options (assign upd (options (this w))) (this w))
                        v
            = deconstruct (this w) v)
  /\ (forall upd : Mutable.t -> Mutable.t,
         assign upd (mutable (this w)) = upd (mutable (this w))).
Proof.
  intros Hc Hr.
  pose proof (runs_fields c w Hr) as (Ho & _ & _ & _ & Hfz).
  assert (Hf : Mutable.frozen (mutable (this w)) = false) by apply Hr.
  apply constructor_Ok in Hc. destruct Hc as (_ & wid & pid & _ & _ & ->).
  cbn [options frozen] in Ho, Hfz.
  assert (A1 : forall upd : Catflake -> Catflake, assign upd (this w) = this w).
  { intros upd. unfold assign. cbn [isFrozen Catflake_Freezable].
    rewrite Hfz. reflexivity. }
  assert (A2 : forall upd : Options.t -> Options.t,
             set_options (assign upd (options (this w))) (this w) = this w).
  { intros upd. unfold assign. cbn [isFrozen Options_Freezable].
    rewrite Ho. cbn [Options.frozen]. rewrite <- Ho.
    destruct (this w). reflexivity. }
  assert (W : set_this (this w) w = w) by (destruct w; reflexivity).
  split; [exact A1|]. split; [exact A2|]. split; [|split].
  - intros upd v. rewrite A1, W. split; reflexivity.
  - intros upd v. rewrite A2, W. split; reflexivity.
  - intros upd. unfold assign. cbn [isFrozen Mutable_Freezable].
    rewrite Hf. reflexivity.
Qed.

(** C9, as it was stated, fails: an assignment from outside to
    [mutable.increment] of a default instance changes the snowflake that
    the next call of [generate()] returns. *)
Lemma mutable_write_changes_generate :
  exists c,
    constructor RevB Options.defaults 1514790000000 = Ok c
    /\ let clock := fun _ : nat => 1514790000000 in
       let written :=
         set_mutable (assign (Mutable.set_increment 4094) (mutable c)) c in
       fst (generate (start c clock)) = Ok (Done (Str "397282797158400000"))
       /\ fst (generate (start written clock))
          = Ok (Done (Str "397282797158404095"))
       /\ fst (generate (start written clock))
          <> fst (generate (start c clock)).
Proof.
  eexists. split; [reflexivity|].
  split; [vm_compute; reflexivity|]. split; [vm_compute; reflexivity|].
  vm_compute. discriminate.
Qed.

(** * Examples *)

Lemma runs_unfrozen (c : Catflake) (w : world) :
  this w = set_mutable (mutable (this w)) c ->
  Mutable.frozen (mutable (this w)) = false ->
  runs c w.
Proof. intros H1 H2. split; assumption. Qed.

Lemma pack_layout_witness :
  let t := 1514790000000 in
  let F := 397282797158420495 in
  constructor RevB sample_options_sequential t = Ok sample_sequential
  /\ Options.workerId (options sample_sequential) = Int 5
  /\ Options.processId (options sample_sequential) = Int 3
  /\ pack sample_sequential t 3 = F
  /\ fst (_generate None (Some 3) (start sample_sequential (fun _ => t)))
     = Ok (Str "397282797158420495")
  /\ fst (_generate (Some t) (Some 3) (start sample_sequential (fun _ => 7)))
     = Ok (Str "397282797158420495")
  /\ F / pow2 22 = t - 1420070400000
  /\ F mod pow2 22 = 5 * pow2 (2 + 10) + 3 * pow2 2 + 3
  /\ (F / pow2 (2 + 10)) mod pow2 10 = 5
  /\ (F / pow2 2) mod pow2 10 = 3
  /\ F mod pow2 2 = 3.
Proof.
  cbv zeta. split; [reflexivity|].
  destruct (pack_layout RevB sample_options_sequential 1514790000000
              sample_sequential eq_refl)
    as (wid & pid & Hw & Hp & H).
  injection Hw as <-. injection Hp as <-.
  split; [reflexivity|]. split; [reflexivity|].
  assert (Hi : 0 <= 3
               < pow2 (Options.incrementBits (options sample_sequential)))
    by (split; [discriminate|reflexivity]).
  destruct (H 1514790000000 3 Hi) as (H1 & H2 & H3 & H4).
  split; [exact H1|].
  split.
  { apply (H2 (start sample_sequential (fun _ => 1514790000000)));
      [apply runs_unfrozen; reflexivity|reflexivity]. }
  split.
  { apply (H3 (start sample_sequential (fun _ => 7)));
      [apply runs_unfrozen; reflexivity|discriminate]. }
  assert (Z5 : 0 <= 5) by discriminate.
  assert (Z3 : 0 <= 3) by discriminate.
  exact (H4 Z5 Z3).
Defined.

Lemma bit_width_error_witness :
  let bad := Options.mk 1420070400000 12 5 4 (Int 0) (Int 0) false true
                        [] false in
  constructor RevA bad 1514790000000 = Throw InvalidBitWidthConfiguration
  /\ (forall c, constructor RevA bad 1514790000000 <> Ok c)
  /\ (exists c, constructor RevB Options.defaults 1514790000000 = Ok c)
  /\ (constructor RevA Options.defaults 1514790000000 = Throw InvalidInteger
      \/ exists c, constructor RevA Options.defaults 1514790000000 = Ok c)
  /\ Forall (fun r => exists k, r = Ok k)
        (fst (run [Call; Call] (boot sample (fun _ => 1514790000000))))
  /\ deconstruct sample (Str "catflake")
     <> Throw InvalidBitWidthConfiguration.
Proof.
  intros bad.
  destruct (bit_width_error RevA bad 1514790000000) as (H1 & H2 & _).
  destruct (bit_width_error RevB Options.defaults 1514790000000)
    as (_ & _ & H3 & H5 & H4).
  assert (Hbad : (Options.incrementBits bad + Options.processBits bad
                  + Options.workerBits bad)%N <> 22%N) by discriminate.
  split; [exact (proj2 H1 Hbad)|]. split; [exact (H2 Hbad)|].
  split; [exact (H3 eq_refl)|]. split; [exact (H5 eq_refl)|].
  destruct (H4 sample eq_refl) as [Hrun Hdec].
  split; [exact (Hrun (fun _ => 1514790000000) [Call; Call])|exact (Hdec _)].
Defined.

Lemma sequential_increment_witness :
  let w := with_mutable (Mutable.set_increment 4095)
             (start sample (fun _ => 1514790000123)) in
  exists flake w' d,
    generate w = (Ok (Done flake), w')
    /\ Mutable.increment (mutable (this w')) = 0
    /\ deconstruct sample flake = Ok d
    /\ Deconstructed.increment d = 0.
Proof.
  intros w.
  assert (Hinc : -1 <= Mutable.increment (mutable (this w))) by discriminate.
  destruct (sequential_increment RevB Options.defaults 1514790000000 sample w
              eq_refl eq_refl (runs_unfrozen sample w eq_refl eq_refl) Hinc)
    as (flake & w' & d & G & _ & _ & Hi & _ & Hd & _ & Hroll).
  exists flake, w', d.
  split; [exact G|]. split; [exact Hi|]. split; [exact Hd|].
  apply Hroll. reflexivity.
Defined.


Lemma concurrent_call_witness :
  let c := sample_concurrent in
  let later := start c (fun _ => 1514790000001) in
  let same := start c (fun _ => 1514790000000) in
  let full := with_mutable (Mutable.set_increment 3) same in
  (exists w',
      _generateAsync_locked later
      = (Ok (Done (stringified c (pack c 1514790000001 0))), w')
      /\ Mutable.lastTimestamp (mutable (this w')) = 1514790000001
      /\ Mutable.increment (mutable (this w')) = 0)
  /\ (exists w',
         _generateAsync_locked same
         = (Ok (Done (stringified c (pack c 1514790000000 0))), w')
         /\ Mutable.increment (mutable (this w')) = 0)
  /\ (exists w1 w',
         _generateAsync_locked full = (Ok (Await (AwaitSleep 2)), w1)
         /\ Mutable.increment (mutable (this w1)) = 4
         /\ resume (AwaitSleep 2) w1
            = (Ok (Done (stringified c (pack c 1514790000000 0))), w')
         /\ Mutable.increment (mutable (this w')) = 0).
Proof.
  intros c later same full.
  assert (Rl : runs c later) by (apply runs_unfrozen; reflexivity).
  assert (Rs : runs c same) by (apply runs_unfrozen; reflexivity).
  assert (Rf : runs c full) by (apply runs_unfrozen; reflexivity).
  assert (Nl : clock later (reads later) <> 0) by discriminate.
  assert (Ns : clock same (reads same) <> 0) by discriminate.
  assert (Nf : clock full (reads full) <> 0) by discriminate.
  destruct (concurrent_call RevB sample_options_concurrent 1514790000000
              c later eq_refl Rl Nl) as (A & _ & _).
  destruct (concurrent_call RevB sample_options_concurrent 1514790000000
              c same eq_refl Rs Ns) as (_ & B & _).
  destruct (concurrent_call RevB sample_options_concurrent 1514790000000
              c full eq_refl Rf Nf) as (_ & _ & C).
  assert (Al : Mutable.lastTimestamp (mutable (this later))
               <> clock later (reads later)) by discriminate.
  destruct (A Al) as (w' & E & _ & Hl & Hi).
  split; [exists w'; split; [exact E|split; [exact Hl|exact Hi]]|].
  assert (Bs : Mutable.increment (mutable (this same)) + 1
               < pow2 (Options.incrementBits (options c))) by reflexivity.
  destruct (B eq_refl Bs) as (w2 & E2 & _ & _ & Hi2).
  split; [exists w2; split; [exact E2|exact Hi2]|].
  assert (Cf : pow2 (Options.incrementBits (options c))
               <= Mutable.increment (mutable (this full)) + 1)
    by discriminate.
  destruct (C eq_refl Cf) as (w1 & E1 & R1 & Hi1 & _ & _ & K).
  assert (N1 : clock w1 (reads w1) <> 0).
  { assert (E1' : w1 = snd (_generateAsync_locked full))
      by (rewrite E1; reflexivity).
    rewrite E1'. discriminate. }
  destruct (K w1 R1 N1) as (w3 & E3 & _ & _ & Hi3).
  exists w1, w3. split; [exact E1|]. split; [exact Hi1|].
  assert (E1' : w1 = snd (_generateAsync_locked full))
    by (rewrite E1; reflexivity).
  split; [|exact Hi3].
  rewrite E3. rewrite E1'. reflexivity.
Defined.

Lemma increment_within_bits_witness :
  let c := sample_concurrent in
  let es := [Call; Call; Call; Call; Call; Call] in
  let s := snd (run es (boot c (fun _ => 1514790000000))) in
  Forall (fun r =>
            match r with
            | Ok (Done flake) =>
                exists t i d,
                  flake = stringified c (pack c t i)
                  /\ 0 <= i < 4
                  /\ deconstruct c flake = Ok d
                  /\ Deconstructed.increment d = i
            | Ok (Await _) => True
            | Throw _ => False
            end)
         (fst (run es (boot c (fun _ => 1514790000000))))
  /\ Mutable.increment (mutable (this (world_of s))) = 4
  /\ Options.async (options c) = true
  /\ exists behind, suspended s = AwaitSleep 2 :: behind.
Proof.
  intros c es s.
  destruct (increment_within_bits RevB sample_options_concurrent
              1514790000000 c (fun _ => 1514790000000) es eq_refl)
    as [HF [_ HS]].
  split; [exact HF|]. split; [reflexivity|]. exact (HS eq_refl).
Defined.

Lemma frozen_but_mutable_witness :
  let w := start sample (fun _ => 1514790000000) in
  assign (set_extra "newprop" (Bool true)) (this w) = this w
  /\ lookup "newprop"
       (extra (assign (set_extra "newprop" (Bool true)) (this w)))
     = Undefined
  /\ set_options
       (assign (Options.set_extra "newprop" (Bool true)) (options (this w)))
       (this w) = this w
  /\ generate (set_this (assign (set_maxIncrement 1) (this w)) w)
     = generate w
  /\ deconstruct
       (set_options
          (assign (Options.set_processId (Int 7)) (options (this w)))
          (this w)) (Str "397282797158964394")
     = deconstruct (this w) (Str "397282797158964394")
  /\ assign (Mutable.set_increment 4095) (mutable (this w))
     = Mutable.set_increment 4095 (mutable (this w)).
Proof.
  intros w.
  assert (R : runs sample w) by (apply runs_unfrozen; reflexivity).
  destruct (frozen_but_mutable RevB Options.defaults 1514790000000 sample w
              eq_refl R) as (A1 & A2 & A3 & A4 & A5).
  split; [exact (A1 _)|].
  split; [rewrite (A1 (set_extra "newprop" (Bool true))); reflexivity|].
  split; [exact (A2 _)|].
  split; [exact (proj1 (A3 _ (Str "")))|].
  split; [exact (proj2 (A4 _ _))|exact (A5 _)].
Defined.

(** * Further properties *)

(** ** Taking any integer apart *)

Lemma div_mod_split (z A : Z) : 0 < A -> z = z / A * A + z mod A.
Proof. intros H. rewrite Z.mul_comm. apply Z.div_mod. lia. Qed.

(** X1: [deconstruct] of a constructed instance accepts every integer, as
    a BigInteger and as decimal text alike, and as a number when it is a
    safe integer; the three id fields it returns lie within their widths,
    whatever the integer, also a negative one, and the integer is the four
    fields put back in their places. *)
Theorem deconstruct_recomposes (rev : revision) (o : Options.t) (now : Z)
    (c : Catflake) (z : Z) :
  constructor rev o now = Ok c ->
  let ib := Options.incrementBits (options c) in
  let pb := Options.processBits (options c) in
  let wb := Options.workerBits (options c) in
  exists d,
    deconstruct c (Big z) = Ok d
    /\ (Z.abs z <= 9007199254740991 -> deconstruct c (Num (Int z)) = Ok d)
    /\ deconstruct c (Str (BigInt.toString z)) = Ok d
    /\ 0 <= Deconstructed.increment d < pow2 ib
    /\ 0 <= Deconstructed.processId d < pow2 pb
    /\ 0 <= Deconstructed.workerId d < pow2 wb
    /\ z = (Deconstructed.timestamp d - Options.epoch (options c)) * pow2 22
           + Deconstructed.workerId d * pow2 (ib + pb)
           + Deconstructed.processId d * pow2 ib
           + Deconstructed.increment d.
Proof.
  intros H. apply constructor_Ok in H.
  destruct H as (Hsum & wid & pid & _ & _ & ->).
  cbn [options Options.incrementBits Options.processBits Options.workerBits
       Options.epoch].
  set (ib := Options.incrementBits o). set (pb := Options.processBits o).
  set (wb := Options.workerBits o). fold ib pb wb in Hsum.
  pose proof (pow2_pos ib) as HA. pose proof (pow2_pos pb) as HB.
  pose proof (pow2_pos wb) as HC.
  eexists. split; [apply deconstruct_Big|].
  split; [intros _; apply deconstruct_Big|].
  split.
  { unfold deconstruct. cbn [BigInt.parse]. rewrite of_string_toString.
    apply deconstruct_Big. }
  cbn [Deconstructed.increment Deconstructed.processId Deconstructed.workerId
       Deconstructed.timestamp options Options.incrementBits
       Options.processBits Options.workerBits Options.epoch].
  fold ib pb wb.
  split; [apply Z.mod_pos_bound; exact HA|].
  split; [apply Z.mod_pos_bound; exact HB|].
  split; [apply Z.mod_pos_bound; exact HC|].
  assert (E22 : pow2 22 = pow2 ib * pow2 pb * pow2 wb)
    by (rewrite <- Hsum, !pow2_add; reflexivity).
  rewrite E22, pow2_add.
  rewrite <- (Z.div_div z (pow2 ib * pow2 pb) (pow2 wb)) by lia.
  rewrite <- (Z.div_div z (pow2 ib) (pow2 pb)) by lia.
  pose proof (div_mod_split z (pow2 ib) HA) as E1.
  pose proof (div_mod_split (z / pow2 ib) (pow2 pb) HB) as E2.
  pose proof (div_mod_split (z / pow2 ib / pow2 pb) (pow2 wb) HC) as E3.
  set (q1 := z / pow2 ib) in *. set (q2 := q1 / pow2 pb) in *.
  set (q3 := q2 / pow2 wb) in *.
  replace (q3 + Options.epoch o - Options.epoch o) with q3 by ring.
  rewrite E1 at 1. rewrite E2 at 1. rewrite E3 at 1. ring.
Qed.

Lemma deconstruct_recomposes_witness :
  exists d,
    deconstruct sample (Big (-5)) = Ok d
    /\ deconstruct sample (Num (Int (-5))) = Ok d
    /\ deconstruct sample (Str "-5") = Ok d
    /\ 0 <= Deconstructed.increment d < 4096
    /\ 0 <= Deconstructed.processId d < 32
    /\ 0 <= Deconstructed.workerId d < 32
    /\ -5 = (Deconstructed.timestamp d - 1420070400000) * pow2 22
            + Deconstructed.workerId d * pow2 17
            + Deconstructed.processId d * pow2 12
            + Deconstructed.increment d.
Proof.
  pose proof (deconstruct_recomposes RevB Options.defaults 1514790000000
                sample (-5) eq_refl) as H.
  cbv zeta in H. destruct H as (d & H1 & H2 & H3).
  exists d. split; [exact H1|]. split; [apply H2; cbn; lia|exact H3].
Defined.

(** ** Distinct snowflakes *)

Lemma toString_injective (a b : Z) :
  BigInt.toString a = BigInt.toString b -> a = b.
Proof.
  intros H. pose proof (of_string_toString a) as Ha.
  rewrite H, of_string_toString in Ha. congruence.
Qed.

Lemma stringified_injective (c : Catflake) (a b : Z) :
  stringified c a = stringified c b -> a = b.
Proof.
  unfold stringified. destruct (Options.stringify (options c)).
  - intros [= H]. apply toString_injective. exact H.
  - intros [= H]. exact H.
Qed.

Lemma pow2_le_22 (ib pb wb : N) :
  (ib + pb + wb = 22)%N -> pow2 ib <= pow2 22.
Proof.
  intros H. unfold pow2. apply Z.pow_le_mono_r; lia.
Qed.

Lemma pack_stringified_injective (rev : revision) (o : Options.t) (now : Z)
    (c : Catflake) (t1 i1 t2 i2 : Z) :
  constructor rev o now = Ok c ->
  0 <= i1 < maxIncrement c ->
  0 <= i2 < maxIncrement c ->
  stringified c (pack c t1 i1) = stringified c (pack c t2 i2) ->
  t1 = t2 /\ i1 = i2.
Proof.
  intros Hc H1 H2 E.
  apply stringified_injective in E.
  rewrite !pack_eq in E.
  rewrite (constructor_maxIncrement _ _ _ _ Hc) in H1, H2.
  apply constructor_Ok in Hc.
  destruct Hc as (Hsum & wid & pid & _ & _ & ->).
  cbn [options workerId processId Options.epoch Options.incrementBits] in *.
  pose proof (pow2_le_22 _ _ _ Hsum) as Hle.
  pose proof (pow2_pos 22) as H22.
  assert (Ed : (t1 - t2) * pow2 22 = i2 - i1) by lia.
  assert (t1 - t2 = 0) by nia.
  split; lia.
Qed.

(** X2: two snowflakes that a constructed instance packs from increments
    within the increment bits, from timestamps or increments that differ,
    are different, whatever the stored ids are and whether the snowflakes
    are text or integers. *)
Theorem snowflake_injective (rev : revision) (o : Options.t) (now : Z)
    (c : Catflake) (t1 i1 t2 i2 : Z) :
  constructor rev o now = Ok c ->
  0 <= i1 < maxIncrement c ->
  0 <= i2 < maxIncrement c ->
  (t1, i1) <> (t2, i2) ->
  stringified c (pack c t1 i1) <> stringified c (pack c t2 i2).
Proof.
  intros Hc H1 H2 Hne E. apply Hne.
  destruct (pack_stringified_injective rev o now c t1 i1 t2 i2 Hc H1 H2 E)
    as [-> ->].
  reflexivity.
Qed.

Lemma snowflake_injective_witness :
  stringified sample (pack sample 1514790000000 4095)
  <> stringified sample (pack sample 1514790000001 0).
Proof.
  assert (H1 : 0 <= 4095 < maxIncrement sample)
    by (split; [discriminate|reflexivity]).
  assert (H2 : 0 <= 0 < maxIncrement sample)
    by (split; [discriminate|reflexivity]).
  assert (Hne : (1514790000000, 4095) <> (1514790000001, 0))
    by discriminate.
  exact (snowflake_injective RevB Options.defaults 1514790000000 sample
           1514790000000 4095 1514790000001 0 eq_refl H1 H2 Hne).
Defined.

(** ** Sequential mode, call after call *)

(** a call of [generate()] in sequential mode, whatever the lock and the
    suspended calls are *)
Lemma fire_Call_sequential_run (rev : revision) (o : Options.t) (now0 : Z)
    (c0 : Catflake) (w : world) (susp : list awaited) :
  constructor rev o now0 = Ok c0 ->
  Options.async (options c0) = false ->
  runs c0 w ->
  -1 <= Mutable.increment (mutable (this w)) ->
  let i := (Mutable.increment (mutable (this w)) + 1) mod maxIncrement c0 in
  fire Call (mkSystem w susp)
  = Some (Ok (Done (stringified c0 (pack c0 (clock w (reads w)) i))),
          mkSystem (with_mutable (Mutable.set_increment i) (tick w)) susp).
Proof.
  intros Hc Ha Hr Hinc i.
  pose proof (runs_fields c0 w Hr) as (Ho & Hm & _).
  pose proof (constructor_maxIncrement _ _ _ _ Hc) as Hmax.
  pose proof (pow2_pos (Options.incrementBits (options c0))) as Hpos.
  assert (Hf : Mutable.frozen (mutable (this w)) = false) by apply Hr.
  assert (Hm0 : maxIncrement (this w) <> 0) by lia.
  pose proof (_generate_sequential w Hf Hm0) as G. cbv zeta in G.
  rewrite (stringified_runs c0 w), (pack_runs c0 w) in G by exact Hr.
  rewrite Hm, Z.rem_mod_nonneg in G by lia. fold i in G.
  unfold fire, generate, bind, get_this. cbn [world_of suspended].
  rewrite Ho, Ha, G. reflexivity.
Qed.

Lemma sequential_run (rev : revision) (o : Options.t) (now0 : Z)
    (c0 : Catflake) (n : nat) :
  constructor rev o now0 = Ok c0 ->
  Options.async (options c0) = false ->
  forall (w : world) (susp : list awaited),
    runs c0 w ->
    -1 <= Mutable.increment (mutable (this w)) ->
    fst (run (repeat Call n) (mkSystem w susp))
    = map (fun k =>
             Ok (Done (stringified c0
                         (pack c0 (clock w (reads w + k))
                            ((Mutable.increment (mutable (this w)) + 1
                              + Z.of_nat k) mod maxIncrement c0)))))
          (seq 0 n).
Proof.
  intros Hc Ha.
  pose proof (constructor_maxIncrement _ _ _ _ Hc) as Hmax.
  pose proof (pow2_pos (Options.incrementBits (options c0))) as Hpos.
  induction n as [|n IH]; intros w susp Hr Hinc; [reflexivity|].
  cbn [repeat run].
  rewrite (fire_Call_sequential_run rev o now0 c0 w susp Hc Ha Hr Hinc).
  cbv zeta.
  set (i := (Mutable.increment (mutable (this w)) + 1) mod maxIncrement c0).
  set (w' := with_mutable (Mutable.set_increment i) (tick w)).
  assert (Hr' : runs c0 w')
    by (apply runs_with_mutable; [exact Hr|apply Hr]).
  assert (Hi : 0 <= i < maxIncrement c0)
    by (apply Z.mod_pos_bound; lia).
  assert (Hinc' : -1 <= Mutable.increment (mutable (this w')))
    by (change (Mutable.increment (mutable (this w'))) with i; lia).
  specialize (IH w' susp Hr' Hinc').
  destruct (run (repeat Call n) (mkSystem w' susp)) as [rs s''].
  cbn [fst] in *. rewrite IH.
  cbn [seq map]. f_equal.
  - rewrite Nat.add_0_r, Z.add_0_r. reflexivity.
  - rewrite <- seq_shift, map_map. apply map_ext. intros k.
    change (clock w') with (clock w).
    change (reads w') with (S (reads w)).
    change (Mutable.increment (mutable (this w'))) with i.
    replace (S (reads w) + k)%nat with (reads w + S k)%nat by lia.
    assert (E : (i + 1 + Z.of_nat k) mod maxIncrement c0
                = (Mutable.increment (mutable (this w)) + 1 + Z.of_nat (S k))
                  mod maxIncrement c0).
    { unfold i. rewrite <- Z.add_assoc, Zplus_mod_idemp_l.
      f_equal. lia. }
    rewrite E. reflexivity.
Qed.

(** the calls of a new sequential instance, in closed form *)
Lemma sequential_closed_form (rev : revision) (o : Options.t) (now0 : Z)
    (c : Catflake) (clk : nat -> Z) (n : nat) :
  constructor rev o now0 = Ok c ->
  Options.async (options c) = false ->
  fst (run (repeat Call n) (boot c clk))
  = map (fun k =>
           Ok (Done (stringified c
                       (pack c (clk k)
                             (Z.of_nat k
                              mod pow2 (Options.incrementBits (options c)))))))
        (seq 0 n).
Proof.
  intros Hc Ha.
  pose proof (constructor_maxIncrement _ _ _ _ Hc) as Hmax.
  pose proof (runs_start rev o now0 c clk Hc) as Hr.
  assert (Hseed : Mutable.increment (mutable (this (start c clk))) = -1).
  { apply constructor_Ok in Hc. destruct Hc as (_ & w & p & _ & _ & ->).
    reflexivity. }
  unfold boot.
  rewrite (sequential_run rev o now0 c n Hc Ha (start c clk) [] Hr)
    by (rewrite Hseed; lia).
  apply map_ext. intros k. rewrite Hseed, Hmax. cbn [start clock reads].
  do 4 f_equal.
Qed.

(** X3: in sequential mode the calls of [generate()] made one after the
    other on a new instance read the clock once each and count the
    increment up from 0, wrapping at 2^incrementBits: call number k,
    counted from 0, returns the snowflake packed from reading number k of
    the clock and the increment k mod 2^incrementBits. *)
Theorem sequential_outputs (rev : revision) (o : Options.t) (now0 : Z)
    (c : Catflake) (clk : nat -> Z) (n : nat) :
  constructor rev o now0 = Ok c ->
  Options.async (options c) = false ->
  fst (run (repeat Call n) (boot c clk))
  = map (fun k =>
           Ok (Done (stringified c
                       (pack c (clk k)
                             (Z.of_nat k
                              mod pow2 (Options.incrementBits (options c)))))))
        (seq 0 n).
Proof. exact (sequential_closed_form rev o now0 c clk n). Qed.

(** X4: in sequential mode the first 2^incrementBits snowflakes of a new
    instance are pairwise different, whatever the clock reads. *)
Theorem sequential_distinct (rev : revision) (o : Options.t) (now0 : Z)
    (c : Catflake) (clk : nat -> Z) (n : nat) :
  constructor rev o now0 = Ok c ->
  Options.async (options c) = false ->
  Z.of_nat n <= pow2 (Options.incrementBits (options c)) ->
  NoDup (fst (run (repeat Call n) (boot c clk))).
Proof.
  intros Hc Ha Hn.
  pose proof (constructor_maxIncrement _ _ _ _ Hc) as Hmax.
  rewrite (sequential_closed_form rev o now0 c clk n Hc Ha).
  apply NoDup_map_NoDup_ForallPairs; [|apply seq_NoDup].
  intros x y Hx Hy [= E].
  apply in_seq in Hx. apply in_seq in Hy.
  apply (pack_stringified_injective rev o now0 c) in E;
    try exact Hc;
    try (rewrite Hmax; apply Z.mod_pos_bound; apply pow2_pos).
  destruct E as [_ E].
  rewrite !Z.mod_small in E by lia. lia.
Qed.

(** X5: in sequential mode the increment wraps without a look at the
    clock: when reading number k + 2^incrementBits of the clock equals
    reading number k, call number k + 2^incrementBits of a new instance
    returns the snowflake that call number k returned. *)
Theorem sequential_repeats (rev : revision) (o : Options.t) (now0 : Z)
    (c : Catflake) (clk : nat -> Z) (n k : nat) :
  constructor rev o now0 = Ok c ->
  Options.async (options c) = false ->
  let wrap := Z.to_nat (pow2 (Options.incrementBits (options c))) in
  (k + wrap < n)%nat ->
  clk (k + wrap)%nat = clk k ->
  exists flake,
    nth_error (fst (run (repeat Call n) (boot c clk))) k
    = Some (Ok (Done flake))
    /\ nth_error (fst (run (repeat Call n) (boot c clk))) (k + wrap)
       = Some (Ok (Done flake)).
Proof.
  intros Hc Ha wrap Hk Hclk.
  pose proof (pow2_pos (Options.incrementBits (options c))) as Hpos.
  rewrite (sequential_closed_form rev o now0 c clk n Hc Ha).
  rewrite !nth_error_map, !nth_error_seq.
  destruct (Nat.ltb_spec k n) as [_|]; [|lia].
  destruct (Nat.ltb_spec (k + wrap) n) as [_|]; [|lia].
  cbn [option_map Nat.add]. eexists. split; [reflexivity|].
  rewrite Hclk. do 4 f_equal.
  unfold wrap. rewrite Nat2Z.inj_add, Z2Nat.id by lia.
  rewrite <- (Z.mul_1_l (pow2 _)) at 1. rewrite Z_mod_plus_full.
  reflexivity.
Qed.

Lemma sequential_outputs_witness :
  fst (run (repeat Call 6) (boot sample_sequential (fun k => Z.of_nat k)))
  = map (fun k =>
           Ok (Done (stringified sample_sequential
                       (pack sample_sequential (Z.of_nat k)
                             (Z.of_nat k mod pow2 2)))))
        (seq 0 6).
Proof.
  exact (sequential_outputs RevB sample_options_sequential 1514790000000
           sample_sequential (fun k => Z.of_nat k) 6 eq_refl eq_refl).
Defined.

Lemma sequential_distinct_witness :
  NoDup (fst (run (repeat Call 4)
                  (boot sample_sequential (fun _ => 1514790000000)))).
Proof.
  assert (H : Z.of_nat 4
              <= pow2 (Options.incrementBits (options sample_sequential)))
    by (apply Z.leb_le; reflexivity).
  exact (sequential_distinct RevB sample_options_sequential 1514790000000
           sample_sequential (fun _ => 1514790000000) 4 eq_refl eq_refl H).
Defined.

Lemma sequential_repeats_witness :
  exists flake,
    nth_error (fst (run (repeat Call 6)
                        (boot sample_sequential (fun _ => 1514790000000)))) 1
    = Some (Ok (Done flake))
    /\ nth_error (fst (run (repeat Call 6)
                          (boot sample_sequential (fun _ => 1514790000000))))
                 5
       = Some (Ok (Done flake)).
Proof.
  assert (H : (1 + Z.to_nat
                     (pow2 (Options.incrementBits
                              (options sample_sequential))) < 6)%nat)
    by (apply Nat.ltb_lt; reflexivity).
  exact (sequential_repeats RevB sample_options_sequential 1514790000000
           sample_sequential (fun _ => 1514790000000) 6 1 eq_refl eq_refl H
           eq_refl).
Defined.

(** in sequential mode every event leaves the lock, the promises and the
    last timestamp as they are, and no call is suspended *)
Lemma sequential_quiet (rev : revision) (o : Options.t) (now0 : Z)
    (c0 : Catflake) (es : list event) :
  constructor rev o now0 = Ok c0 ->
  Options.async (options c0) = false ->
  forall w : world,
    runs c0 w ->
    -1 <= Mutable.increment (mutable (this w)) ->
    Forall (fun r => exists flake, r = Ok (Done flake))
           (fst (run es (mkSystem w [])))
    /\ suspended (snd (run es (mkSystem w []))) = []
    /\ lock_view (world_of (snd (run es (mkSystem w [])))) = lock_view w
    /\ Mutable.lastTimestamp
         (mutable (this (world_of (snd (run es (mkSystem w []))))))
       = Mutable.lastTimestamp (mutable (this w)).
Proof.
  intros Hc Ha.
  pose proof (constructor_maxIncrement _ _ _ _ Hc) as Hmax.
  pose proof (pow2_pos (Options.incrementBits (options c0))) as Hpos.
  induction es as [|e es IH]; intros w Hr Hinc.
  - repeat split. constructor.
  - cbn [run]. destruct e as [|a].
    + rewrite (fire_Call_sequential_run rev o now0 c0 w [] Hc Ha Hr Hinc).
      cbv zeta.
      set (i := (Mutable.increment (mutable (this w)) + 1)
                mod maxIncrement c0).
      set (w' := with_mutable (Mutable.set_increment i) (tick w)).
      assert (Hr' : runs c0 w')
        by (apply runs_with_mutable; [exact Hr|apply Hr]).
      assert (Hi : 0 <= i < maxIncrement c0)
        by (apply Z.mod_pos_bound; lia).
      assert (Hinc' : -1 <= Mutable.increment (mutable (this w')))
        by (change (Mutable.increment (mutable (this w'))) with i; lia).
      destruct (IH w' Hr' Hinc') as (F & S & V & L).
      destruct (run es (mkSystem w' [])) as [rs s''].
      cbn [fst snd] in *.
      split; [constructor; [eauto|exact F]|].
      split; [exact S|]. split; [exact V|exact L].
    + cbn [fire suspended existsb andb]. apply IH; assumption.
Qed.

(** X6: in sequential mode no call of [generate()] ever waits: whatever
    events are tried on a new instance, every call returns a snowflake at
    once, no call is suspended, the lock stays free with an empty queue,
    no promise is created or resolved, and the stored last timestamp stays
    the time of construction. *)
Theorem sequential_never_waits (rev : revision) (o : Options.t) (now0 : Z)
    (c : Catflake) (clk : nat -> Z) (es : list event) :
  constructor rev o now0 = Ok c ->
  Options.async (options c) = false ->
  let s := snd (run es (boot c clk)) in
  let m := mutable (this (world_of s)) in
  Forall (fun r => exists flake, r = Ok (Done flake))
         (fst (run es (boot c clk)))
  /\ suspended s = []
  /\ Mutable.locked m = false
  /\ Mutable.locks m = []
  /\ promises (world_of s) = 0%nat
  /\ resolved (world_of s) = []
  /\ Mutable.lastTimestamp m = now0.
Proof.
  intros Hc Ha.
  pose proof (runs_start rev o now0 c clk Hc) as Hr.
  assert (Hboot : mutable c = Mutable.mk (-1) now0 [] false [] false).
  { apply constructor_Ok in Hc. destruct Hc as (_ & w & p & _ & _ & ->).
    reflexivity. }
  assert (Hinc : -1 <= Mutable.increment (mutable (this (start c clk))))
    by (cbn [start this]; rewrite Hboot; cbn; lia).
  destruct (sequential_quiet rev o now0 c es Hc Ha (start c clk) Hr Hinc)
    as (F & S & V & L).
  fold (boot c clk) in F, S, V, L. cbv zeta.
  unfold lock_view in V. cbn [start this promises resolved] in V, L.
  rewrite Hboot in V, L. cbn in V, L. injection V as V1 V2 V3 V4.
  repeat split; assumption.
Qed.

Lemma sequential_never_waits_witness :
  let es := [Call; Resume (AwaitSleep 2); Call; Resume (AwaitLock 0%nat);
             Call] in
  let s := snd (run es (boot sample_sequential (fun _ => 1514790000000))) in
  let m := mutable (this (world_of s)) in
  Forall (fun r => exists flake, r = Ok (Done flake))
         (fst (run es (boot sample_sequential (fun _ => 1514790000000))))
  /\ suspended s = []
  /\ Mutable.locked m = false
  /\ Mutable.locks m = []
  /\ promises (world_of s) = 0%nat
  /\ resolved (world_of s) = []
  /\ Mutable.lastTimestamp m = 1514790000000.
Proof.
  exact (sequential_never_waits RevB sample_options_sequential 1514790000000
           sample_sequential (fun _ => 1514790000000)
           [Call; Resume (AwaitSleep 2); Call; Resume (AwaitLock 0%nat); Call]
           eq_refl eq_refl).
Defined.

(** ** The owner of the critical section *)

(** a suspended call that can go on is the owner of the section, the
    first of the suspended calls *)
Lemma enabled_owner (c0 : Catflake) (a : awaited) (s : system) :
  Inv c0 s ->
  existsb (awaited_eqb a) (suspended s) && ready a (world_of s) = true ->
  Mutable.locked (mutable (this (world_of s))) = true
  /\ suspended s
     = a :: map AwaitLock (Mutable.locks (mutable (this (world_of s))))
  /\ match a with
     | AwaitSleep time =>
         time = 2
         /\ Mutable.increment (mutable (this (world_of s))) = maxIncrement c0
     | AwaitLock p =>
         In p (resolved (world_of s))
         /\ -1 <= Mutable.increment (mutable (this (world_of s)))
            < maxIncrement c0
     end.
Proof.
  intros (Hr & Hsync & Hq & Hph) En.
  destruct s as [w susp]. cbn [world_of suspended] in *.
  apply andb_true_iff in En. destruct En as [Hin Hrd].
  apply existsb_exists in Hin. destruct Hin as (b & Hb & Hab).
  apply awaited_eqb_eq in Hab. subst b.
  unfold phase_inv in Hph. unfold lock_view in Hph at 1.
  destruct (Mutable.locked (mutable (this w))) eqn:Hl.
  2: { destruct Hph as (_ & -> & _). destruct Hb. }
  destruct Hph as (owner & Hs & Hown).
  assert (Hao : a = owner).
  { rewrite Hs in Hb. destruct Hb as [Hb|Hb]; [congruence|].
    apply in_map_iff in Hb. destruct Hb as (q & <- & Hq').
    exfalso. unfold queue_inv, lock_view in Hq.
    destruct Hq as (_ & Hlk & _). destruct (Hlk q Hq') as [_ Hnr].
    apply Hnr. cbn in Hrd. apply existsb_exists in Hrd.
    destruct Hrd as (x & Hx & Hqx). apply Nat.eqb_eq in Hqx.
    subst x. exact Hx. }
  subst owner. split; [reflexivity|]. split; [exact Hs|].
  destruct a as [p|time]; exact Hown.
Qed.

(** the owner of a held section can go on *)
Lemma owner_enabled (c0 : Catflake) (s : system) (owner : awaited)
    (waiters : list awaited) :
  Inv c0 s ->
  suspended s = owner :: waiters ->
  existsb (awaited_eqb owner) (suspended s) && ready owner (world_of s)
  = true.
Proof.
  intros (Hr & Hsync & Hq & Hph) Hs.
  unfold phase_inv in Hph. unfold lock_view in Hph at 1.
  destruct (Mutable.locked (mutable (this (world_of s)))).
  2: { destruct Hph as (_ & E & _). congruence. }
  destruct Hph as (owner' & Hs' & Hown).
  assert (owner' = owner) by congruence. subst owner'.
  rewrite Hs. cbn [existsb].
  rewrite (proj2 (awaited_eqb_eq owner owner) eq_refl). cbn [orb andb].
  destruct owner as [p|time]; [|reflexivity].
  destruct Hown as [Hp _]. cbn [ready]. apply existsb_exists.
  exists p. split; [exact Hp|apply Nat.eqb_refl].
Qed.

(** X7: under every schedule of calls and resumptions, in both modes: if
    no call is suspended the critical section is free and its queue is
    empty; otherwise the section is held, the suspended calls after the
    first are the waiters of [mutable.locks], in the order of the queue,
    the first suspended call, the owner, can go on, and no other suspended
    call can.  So one call at a time is past [_lock], and the calls never
    come to a state in which all of them wait. *)
Theorem one_owner (rev : revision) (o : Options.t) (now0 : Z)
    (c : Catflake) (clk : nat -> Z) (es : list event) :
  constructor rev o now0 = Ok c ->
  let s := snd (run es (boot c clk)) in
  let m := mutable (this (world_of s)) in
  match suspended s with
  | [] => Mutable.locked m = false /\ Mutable.locks m = []
  | owner :: waiters =>
      Mutable.locked m = true
      /\ waiters = map AwaitLock (Mutable.locks m)
      /\ fire (Resume owner) s <> None
      /\ (forall a, a <> owner -> fire (Resume a) s = None)
  end.
Proof.
  intros Hc s m.
  destruct (run_Inv rev o now0 c Hc es (boot c clk)
              (Inv_boot rev o now0 c clk Hc)) as [HI _].
  fold s in HI. subst m.
  destruct (suspended s) as [|owner waiters] eqn:Hs.
  - destruct HI as (_ & _ & _ & Hph).
    unfold phase_inv in Hph. unfold lock_view in Hph at 1.
    destruct (Mutable.locked (mutable (this (world_of s)))).
    + destruct Hph as (owner & E & _). congruence.
    + destruct Hph as (Hk & _ & _). split; [reflexivity|exact Hk].
  - pose proof (owner_enabled c s owner waiters HI Hs) as En.
    destruct (enabled_owner c owner s HI En) as (Hl & Hs' & _).
    split; [exact Hl|]. split; [congruence|]. split.
    + unfold fire. rewrite En. destruct (resume owner (world_of s)).
      discriminate.
    + intros a Hne. unfold fire.
      destruct (existsb (awaited_eqb a) (suspended s)
                && ready a (world_of s)) eqn:Ea; [|reflexivity].
      destruct (enabled_owner c a s HI Ea) as (_ & Hs'' & _).
      congruence.
Qed.

Lemma one_owner_witness :
  let s := snd (run [Call; Call; Call; Call; Call; Call; Call]
                    (boot sample_concurrent (fun _ => 1514790000000))) in
  suspended s = [AwaitSleep 2; AwaitLock 0%nat; AwaitLock 1%nat]
  /\ match suspended s with
     | [] => Mutable.locked (mutable (this (world_of s))) = false
             /\ Mutable.locks (mutable (this (world_of s))) = []
     | owner :: waiters =>
         Mutable.locked (mutable (this (world_of s))) = true
         /\ waiters
            = map AwaitLock (Mutable.locks (mutable (this (world_of s))))
         /\ fire (Resume owner) s <> None
         /\ (forall a, a <> owner -> fire (Resume a) s = None)
     end.
Proof.
  split; [vm_compute; reflexivity|].
  exact (one_owner RevB sample_options_concurrent 1514790000000
           sample_concurrent (fun _ => 1514790000000)
           [Call; Call; Call; Call; Call; Call; Call] eq_refl).
Defined.

(** ** Every suspended call returns *)

(** the owner goes on: it returns a snowflake and leaves the suspended
    calls, or, woken from the queue, it goes to sleep at their head *)
Lemma resume_owner (rev : revision) (o : Options.t) (now0 : Z)
    (c0 : Catflake) (s : system) (owner : awaited)
    (waiters : list awaited) :
  constructor rev o now0 = Ok c0 ->
  Inv c0 s ->
  suspended s = owner :: waiters ->
  exists r s',
    fire (Resume owner) s = Some (r, s')
    /\ Inv c0 s'
    /\ ((exists flake, r = Ok (Done flake) /\ suspended s' = waiters)
        \/ (exists p, owner = AwaitLock p
                      /\ r = Ok (Await (AwaitSleep 2))
                      /\ suspended s' = AwaitSleep 2 :: waiters)).
Proof.
  intros Hc HI Hs.
  pose proof (owner_enabled c0 s owner waiters HI Hs) as En.
  destruct (enabled_owner c0 owner s HI En) as (Hl & _ & Hown).
  assert (Hr : runs c0 (world_of s)) by apply HI.
  assert (E : exists r w',
             resume owner (world_of s) = (r, w')
             /\ ((exists flake, r = Ok (Done flake))
                 \/ (exists p, owner = AwaitLock p
                               /\ r = Ok (Await (AwaitSleep 2))))).
  { destruct owner as [p|time]; cbn [resume].
    - destruct Hown as [_ Hi].
      destruct (locked_body rev o now0 c0 Hc (world_of s) Hr Hi)
        as [(t & w1 & E & _)|(w1 & E & _)]; rewrite E; eauto 8.
    - destruct (slept_body c0 (world_of s) Hr) as (t & w1 & E & _).
      rewrite E. eauto 8. }
  destruct E as (r & w' & E & Hshape).
  assert (Hfire : fire (Resume owner) s
                  = Some (r, mkSystem w' (settle owner r (suspended s)))).
  { unfold fire. rewrite En, E. reflexivity. }
  exists r, (mkSystem w' (settle owner r (suspended s))).
  split; [exact Hfire|].
  split; [exact (proj1 (fire_Inv rev o now0 c0 Hc _ _ _ _ HI Hfire))|].
  rewrite Hs. cbn [suspended settle].
  rewrite (proj2 (awaited_eqb_eq owner owner) eq_refl).
  destruct Hshape as [(flake & ->)|(p & -> & ->)]; eauto 8.
Qed.

Lemma drain (rev : revision) (o : Options.t) (now0 : Z) (c0 : Catflake) :
  constructor rev o now0 = Ok c0 ->
  forall (n : nat) (s : system),
    Inv c0 s ->
    List.length (suspended s) = n ->
    exists resumptions,
      Forall (fun e => e <> Call) resumptions
      /\ (List.length resumptions <= 2 * n)%nat
      /\ suspended (snd (run resumptions s)) = []
      /\ List.length (returned (fst (run resumptions s))) = n.
Proof.
  intros Hc.
  assert (Step : forall n s owner waiters,
             (forall s', Inv c0 s' -> List.length (suspended s') = n ->
                exists resumptions,
                  Forall (fun e => e <> Call) resumptions
                  /\ (List.length resumptions <= 2 * n)%nat
                  /\ suspended (snd (run resumptions s')) = []
                  /\ List.length (returned (fst (run resumptions s'))) = n) ->
             Inv c0 s ->
             suspended s = owner :: waiters ->
             List.length waiters = n ->
             forall flake s',
               fire (Resume owner) s = Some (Ok (Done flake), s') ->
               Inv c0 s' ->
               suspended s' = waiters ->
               exists resumptions,
                 Forall (fun e => e <> Call) resumptions
                 /\ (List.length resumptions <= 1 + 2 * n)%nat
                 /\ suspended (snd (run resumptions s)) = []
                 /\ List.length (returned (fst (run resumptions s))) = S n).
  { intros n s owner waiters IH HI Hs Hn flake s' Hfire HI' Hs'.
    destruct (IH s' HI' ltac:(congruence)) as (rest & Hre & Hlen & He & Hd).
    exists (Resume owner :: rest).
    split; [constructor; [discriminate|exact Hre]|].
    split; [cbn [List.length]; lia|].
    cbn [run]. rewrite Hfire.
    destruct (run rest s') as [rs s'']. cbn [fst snd returned List.length] in *.
    split; [exact He|]. rewrite Hd. reflexivity. }
  induction n as [|n IH]; intros s HI Hn.
  - exists []. split; [constructor|]. split; [cbn; lia|].
    destruct (suspended s) eqn:Hs; [|discriminate].
    cbn [run fst snd returned]. split; [exact Hs|reflexivity].
  - destruct (suspended s) as [|owner waiters] eqn:Hs; [discriminate|].
    cbn [List.length] in Hn. injection Hn as Hn.
    destruct (resume_owner rev o now0 c0 s owner waiters Hc HI Hs)
      as (r & s' & Hfire & HI' & [(flake & -> & Hs')|(p & -> & -> & Hs')]).
    + destruct (Step n s owner waiters IH HI Hs Hn flake s' Hfire HI' Hs')
        as (res & H1 & H2 & H3 & H4).
      exists res. split; [exact H1|]. split; [lia|]. split; assumption.
    + destruct (resume_owner rev o now0 c0 s' (AwaitSleep 2) waiters
                  Hc HI' Hs')
        as (r2 & s2 & Hfire2 & HI2
            & [(flake & -> & Hs2)|(q & Hq & _)]); [|discriminate].
      destruct (Step n s' (AwaitSleep 2) waiters IH HI' Hs' Hn flake s2
                  Hfire2 HI2 Hs2) as (res & H1 & H2 & H3 & H4).
      exists (Resume (AwaitLock p) :: res).
      split; [constructor; [discriminate|exact H1]|].
      split; [cbn [List.length]; lia|].
      cbn [run]. rewrite Hfire.
      destruct (run res s') as [rs s'']. cbn [fst snd returned] in *.
      split; assumption.
Qed.

(** X8: in every state that calls and resumptions lead to, the suspended
    calls can all be brought to return: there are resumptions, no new
    call among them and at most two for each suspended call, one after
    [await lock] and one after [await sleep(2)], after which no call is
    suspended and as many snowflakes have been returned as calls were
    suspended. *)
Theorem suspended_calls_return (rev : revision) (o : Options.t) (now0 : Z)
    (c : Catflake) (clk : nat -> Z) (es : list event) :
  constructor rev o now0 = Ok c ->
  let s := snd (run es (boot c clk)) in
  exists resumptions,
    Forall (fun e => e <> Call) resumptions
    /\ (List.length resumptions <= 2 * List.length (suspended s))%nat
    /\ suspended (snd (run resumptions s)) = []
    /\ List.length (returned (fst (run resumptions s)))
       = List.length (suspended s).
Proof.
  intros Hc s.
  apply (drain rev o now0 c Hc (List.length (suspended s)) s); [|reflexivity].
  exact (proj1 (run_Inv rev o now0 c Hc es (boot c clk)
                  (Inv_boot rev o now0 c clk Hc))).
Qed.

Lemma suspended_calls_return_witness :
  let s := snd (run [Call; Call; Call; Call; Call; Call; Call]
                    (boot sample_concurrent (fun _ => 1514790000000))) in
  List.length (suspended s) = 3%nat
  /\ exists resumptions,
       Forall (fun e => e <> Call) resumptions
       /\ (List.length resumptions <= 2 * List.length (suspended s))%nat
       /\ suspended (snd (run resumptions s)) = []
       /\ List.length (returned (fst (run resumptions s)))
          = List.length (suspended s).
Proof.
  split; [vm_compute; reflexivity|].
  exact (suspended_calls_return RevB sample_options_concurrent 1514790000000
           sample_concurrent (fun _ => 1514790000000)
           [Call; Call; Call; Call; Call; Call; Call] eq_refl).
Defined.

(** ** Concurrent mode, snowflake after snowflake *)

Lemma clock_unlock (w : world) : clock (snd (_unlock w)) = clock w.
Proof.
  unfold _unlock, bind, get_this, splice_locks, resolve, update_mutable.
  destruct (Mutable.locks (mutable (this w)));
    cbn; destruct (Mutable.frozen (mutable (this w))); reflexivity.
Qed.

Section Chain.

Variables (rev : revision) (o : Options.t) (now0 : Z) (c0 : Catflake).
Hypothesis Hc : constructor rev o now0 = Ok c0.
Hypothesis Ha : Options.async (options c0) = true.

Lemma maxIncrement_pos : 0 < maxIncrement c0.
Proof.
  rewrite (constructor_maxIncrement _ _ _ _ Hc). apply pow2_pos.
Qed.

(** a call finishes: lines 144-147, with a date that is not 0 *)
Lemma finish_linked (prev : option (Z * Z)) (w : world) (now : Z) :
  runs c0 w ->
  (forall n, clock w n <> 0) ->
  now <> 0 ->
  Mutable.lastTimestamp (mutable (this w)) = now ->
  0 <= Mutable.increment (mutable (this w)) < maxIncrement c0 ->
  Mutable.increment (mutable (this w)) = 0 /\ restarts c0 prev now
  \/ prev = Some (now, Mutable.increment (mutable (this w)) - 1) ->
  linked c0 prev (fst (_generateAsync_finish now w))
         (snd (_generateAsync_finish now w)).
Proof.
  intros Hr Hnz Hn Hl Hi Hp.
  rewrite _generateAsync_finish_run by apply Hr.
  rewrite (date_used_nonzero now w Hn). cbn [fst snd].
  rewrite (stringified_runs c0 w), (pack_runs c0 w) by exact Hr.
  destruct (_unlock_keeps c0 w Hr) as (Hr' & Hi' & Hl').
  exists now, (Mutable.increment (mutable (this w))).
  split; [reflexivity|]. split; [exact Hi|]. split; [exact Hp|].
  split; [exact Hr'|]. split; [rewrite clock_unlock; exact Hnz|].
  right. rewrite Hi', Hl'. auto.
Qed.

(** a call that holds the lock *)
Lemma locked_linked (prev : option (Z * Z)) (w : world) :
  keeps c0 prev w ->
  linked c0 prev (fst (_generateAsync_locked w))
         (snd (_generateAsync_locked w)).
Proof.
  intros (Hr & Hnz & Hg). unfold linked.
  pose proof maxIncrement_pos as Hpos.
  pose proof (runs_fields c0 w Hr) as (_ & Hm & _).
  assert (Hf : Mutable.frozen (mutable (this w)) = false) by apply Hr.
  destruct (Z.eq_dec (Mutable.lastTimestamp (mutable (this w)))
                     (clock w (reads w))) as [He|Hne].
  - rewrite (_generateAsync_locked_same w Hf He), Hm.
    destruct (maxIncrement c0 <=? Mutable.increment (mutable (this w)) + 1)
      eqn:E.
    + apply Z.leb_le in E. cbn [fst snd linked].
      split; [apply runs_advanced; exact Hr|]. split; [exact Hnz|].
      left. rewrite increment_advanced. split; [exact E|].
      destruct Hg as [[_ Hg]|Hg]; [exact Hg|].
      destruct prev as [[t i]|]; [|lia].
      destruct Hg as (_ & Hi & Hb). exists t. do 2 f_equal. lia.
    + apply Z.leb_gt in E.
      apply finish_linked.
      * apply runs_advanced; exact Hr.
      * exact Hnz.
      * apply Hnz.
      * exact He.
      * rewrite increment_advanced.
        destruct Hg as [Hg|Hg]; [lia|].
        destruct prev as [[t i]|]; [destruct Hg as (_ & Hi & Hb)|]; lia.
      * rewrite increment_advanced.
        destruct Hg as [Hg|Hg]; [lia|].
        destruct prev as [[t i]|].
        -- destruct Hg as (Ht & Hi & _). right. rewrite <- He, Ht, Hi.
           do 2 f_equal. lia.
        -- left. split; [lia|exact I].
  - rewrite (_generateAsync_locked_fresh w Hf Hne).
    apply finish_linked.
    + apply runs_adopted; exact Hr.
    + exact Hnz.
    + apply Hnz.
    + apply lastTimestamp_adopted.
    + rewrite increment_adopted. lia.
    + left. split; [apply increment_adopted|].
      destruct Hg as [[_ [t ->]]|Hg]; [intros _; reflexivity|].
      destruct prev as [[t i]|]; [|exact I].
      destruct Hg as (Ht & _). intros Et. congruence.
Qed.

(** a call that wakes from its sleep, the stored increment being at the
    bound *)
Lemma slept_linked (prev : option (Z * Z)) (w : world) :
  keeps c0 prev w ->
  Mutable.increment (mutable (this w)) = maxIncrement c0 ->
  linked c0 prev (fst (_generateAsync_slept w)) (snd (_generateAsync_slept w)).
Proof.
  intros (Hr & Hnz & Hg) Hmax. unfold linked.
  pose proof maxIncrement_pos as Hpos.
  rewrite (_generateAsync_slept_run w) by apply Hr.
  apply finish_linked.
  - apply runs_adopted; exact Hr.
  - exact Hnz.
  - apply Hnz.
  - apply lastTimestamp_adopted.
  - rewrite increment_adopted. lia.
  - left. split; [apply increment_adopted|].
    destruct Hg as [[_ [t ->]]|Hg]; [intros _; reflexivity|].
    destruct prev as [[t i]|]; [destruct Hg as (_ & Hi & Hb)|]; lia.
Qed.

Lemma fire_linked (prev : option (Z * Z)) (e : event) (s : system)
    (r : result completion) (s' : system) :
  Inv c0 s ->
  keeps c0 prev (world_of s) ->
  fire e s = Some (r, s') ->
  linked c0 prev r (world_of s').
Proof.
  intros HI K Hfire.
  destruct e as [|a].
  - destruct s as [w susp]. cbn [world_of] in K.
    pose proof K as (Hr & Hnz & Hg).
    pose proof (runs_fields c0 w Hr) as (Ho & _).
    assert (Hf : Mutable.frozen (mutable (this w)) = false) by apply Hr.
    unfold fire, generate, bind, get_this in Hfire.
    cbn [world_of suspended] in Hfire. rewrite Ho, Ha in Hfire.
    unfold _generateAsync, bind in Hfire.
    destruct (Mutable.locked (mutable (this w))) eqn:Hl.
    + rewrite (_lock_held w Hf Hl) in Hfire. cbn in Hfire.
      injection Hfire as <- <-. cbn [linked world_of].
      split; [|split; [exact Hnz|exact Hg]].
      apply (runs_with_mutable c0 (alloc w)); [exact Hr|exact Hf].
    + rewrite (_lock_free w Hf Hl) in Hfire.
      set (w1 := with_mutable (Mutable.set_locked true) w) in *.
      assert (K1 : keeps c0 prev w1).
      { split; [apply runs_with_mutable; [exact Hr|exact Hf]|].
        split; [exact Hnz|exact Hg]. }
      pose proof (locked_linked prev w1 K1) as L.
      destruct (_generateAsync_locked w1) as [r1 w1'].
      injection Hfire as <- <-. exact L.
  - unfold fire in Hfire.
    destruct (existsb (awaited_eqb a) (suspended s) && ready a (world_of s))
      eqn:En; [|discriminate].
    destruct (enabled_owner c0 a s HI En) as (_ & _ & Hown).
    destruct a as [p|time]; cbn [resume] in Hfire.
    + pose proof (locked_linked prev (world_of s) K) as L.
      destruct (_generateAsync_locked (world_of s)) as [r1 w1'].
      injection Hfire as <- <-. exact L.
    + destruct Hown as [_ Hmax].
      pose proof (slept_linked prev (world_of s) K Hmax) as L.
      destruct (_generateAsync_slept (world_of s)) as [r1 w1'].
      injection Hfire as <- <-. exact L.
Qed.

Lemma run_chained (es : list event) :
  forall (prev : option (Z * Z)) (s : system),
    Inv c0 s ->
    keeps c0 prev (world_of s) ->
    chained c0 prev (fst (run es s)).
Proof.
  induction es as [|e es IH]; intros prev s HI K; [exact I|].
  cbn [run]. destruct (fire e s) as [[r s']|] eqn:E.
  - pose proof (fire_linked prev e s r s' HI K E) as L.
    destruct (fire_Inv rev o now0 c0 Hc e s r s' HI E) as [HI' _].
    destruct r as [[flake|a]|err]; cbn [linked] in L.
    + destruct L as (t & i & Hf & Hi & Hp & K').
      specialize (IH (Some (t, i)) s' HI' K').
      destruct (run es s') as [rs s'']. cbn [fst chained] in *.
      exists t, i. auto.
    + specialize (IH prev s' HI' L).
      destruct (run es s') as [rs s'']. exact IH.
    + destruct L.
  - apply IH; assumption.
Qed.

End Chain.

(** X9: in concurrent mode, with a clock that never reads 0, the
    snowflakes that a new instance returns, under every schedule of calls
    and resumptions, are packed from increments within the increment bits:
    each from the timestamp of the snowflake returned before it and an
    increment one higher, or from the increment 0; and from 0 at the
    timestamp of the snowflake before only after the highest increment,
    when the clock reads the same after the sleep of lines 136-138.
    Within one timestamp the increments count up without a gap; this is
    what the loop of the test 'should properly roll over (300)' checks. *)
Theorem concurrent_outputs_chained (rev : revision) (o : Options.t)
    (now0 : Z) (c : Catflake) (clk : nat -> Z) (es : list event) :
  constructor rev o now0 = Ok c ->
  Options.async (options c) = true ->
  (forall n, clk n <> 0) ->
  chained c None (fst (run es (boot c clk))).
Proof.
  intros Hc Ha Hnz.
  apply (run_chained rev o now0 c Hc Ha).
  - exact (Inv_boot rev o now0 c clk Hc).
  - split; [exact (runs_start rev o now0 c clk Hc)|].
    split; [exact Hnz|].
    right. apply constructor_Ok in Hc.
    destruct Hc as (_ & w & p & _ & _ & ->). reflexivity.
Qed.

Lemma concurrent_outputs_chained_witness :
  chained sample_concurrent None
    (fst (run [Call; Call; Call; Call; Call; Call; Resume (AwaitSleep 2);
               Resume (AwaitLock 0%nat)]
              (boot sample_concurrent (fun _ => 1514790000000)))).
Proof.
  assert (Hnz : forall n : nat, (fun _ : nat => 1514790000000) n <> 0)
    by (intros n; discriminate).
  exact (concurrent_outputs_chained RevB sample_options_concurrent
           1514790000000 sample_concurrent (fun _ => 1514790000000)
           [Call; Call; Call; Call; Call; Call; Resume (AwaitSleep 2);
            Resume (AwaitLock 0%nat)]
           eq_refl eq_refl Hnz).
Defined.

(** ** The promises of the lock *)

Lemma ledger_unlock (w : world) :
  ledger (snd (_unlock w)) = ledger w
  /\ promises (snd (_unlock w)) = promises w.
Proof.
  unfold _unlock, bind, get_this, splice_locks, resolve, update_mutable,
    ledger.
  destruct (Mutable.locks (mutable (this w))) as [|p rest] eqn:Hk.
  - cbn. destruct (Mutable.frozen (mutable (this w))); cbn;
      rewrite ?Hk; split; reflexivity.
  - cbn. rewrite <- app_assoc. split; reflexivity.
Qed.

(** whatever leaves the lock, the promises and the resolved ones alone
    leaves the ledger alone *)
Lemma ledger_lock_view (w1 w : world) :
  lock_view w1 = lock_view w ->
  ledger w1 = ledger w /\ promises w1 = promises w.
Proof.
  unfold lock_view, ledger. intros [= _ -> -> ->]. split; reflexivity.
Qed.

Lemma ledger_finish (w : world) (now : Z) :
  Mutable.frozen (mutable (this w)) = false ->
  ledger (snd (_generateAsync_finish now w)) = ledger w
  /\ promises (snd (_generateAsync_finish now w)) = promises w.
Proof.
  intros Hf. rewrite (_generateAsync_finish_run w now Hf). cbn [snd].
  destruct (ledger_unlock (snd (date_used now w))) as [-> ->].
  apply ledger_lock_view. apply lock_view_date_used.
Qed.

Lemma ledger_slept (w : world) :
  Mutable.frozen (mutable (this w)) = false ->
  ledger (snd (_generateAsync_slept w)) = ledger w
  /\ promises (snd (_generateAsync_slept w)) = promises w.
Proof.
  intros Hf. rewrite (_generateAsync_slept_run w Hf).
  destruct (ledger_finish (adopted (clock w (reads w)) w) (clock w (reads w)))
    as [-> ->]; [exact Hf|].
  split; reflexivity.
Qed.

Lemma ledger_locked (w : world) :
  Mutable.frozen (mutable (this w)) = false ->
  ledger (snd (_generateAsync_locked w)) = ledger w
  /\ promises (snd (_generateAsync_locked w)) = promises w.
Proof.
  intros Hf.
  destruct (Z.eq_dec (Mutable.lastTimestamp (mutable (this w)))
                     (clock w (reads w))) as [He|Hne].
  - rewrite (_generateAsync_locked_same w Hf He).
    destruct (maxIncrement (this w)
              <=? Mutable.increment (mutable (this w)) + 1).
    + split; reflexivity.
    + destruct (ledger_finish (advanced w) (clock w (reads w))) as [-> ->];
        [exact Hf|].
      split; reflexivity.
  - rewrite (_generateAsync_locked_fresh w Hf Hne).
    destruct (ledger_finish (adopted (clock w (reads w)) w)
                (clock w (reads w))) as [-> ->]; [exact Hf|].
    split; reflexivity.
Qed.

(** an event leaves the ledger as it is, or appends the promise it has
    created *)
Lemma fire_ledger (rev : revision) (o : Options.t) (now0 : Z)
    (c0 : Catflake) (e : event) (s : system) (r : result completion)
    (s' : system) :
  constructor rev o now0 = Ok c0 ->
  runs c0 (world_of s) ->
  fire e s = Some (r, s') ->
  (ledger (world_of s') = ledger (world_of s)
   /\ promises (world_of s') = promises (world_of s))
  \/ (ledger (world_of s') = ledger (world_of s) ++ [promises (world_of s)]
      /\ promises (world_of s') = S (promises (world_of s))).
Proof.
  intros Hc Hr Hfire. destruct s as [w susp]. cbn [world_of] in *.
  pose proof (runs_fields c0 w Hr) as (Ho & Hm & _).
  pose proof (constructor_maxIncrement _ _ _ _ Hc) as Hmax.
  pose proof (pow2_pos (Options.incrementBits (options c0))) as Hpos.
  assert (Hf : Mutable.frozen (mutable (this w)) = false) by apply Hr.
  destruct e as [|a].
  - unfold fire, generate, bind, get_this in Hfire.
    cbn [world_of suspended] in Hfire.
    destruct (Options.async (options (this w))).
    + unfold _generateAsync, bind in Hfire.
      destruct (Mutable.locked (mutable (this w))) eqn:Hl.
      * rewrite (_lock_held w Hf Hl) in Hfire. cbn in Hfire.
        injection Hfire as <- <-. right. cbn [world_of].
        unfold ledger. cbn. rewrite app_assoc. split; reflexivity.
      * rewrite (_lock_free w Hf Hl) in Hfire.
        set (w1 := with_mutable (Mutable.set_locked true) w) in *.
        pose proof (ledger_locked w1 Hf) as L.
        destruct (_generateAsync_locked w1) as [r1 w1'].
        injection Hfire as <- <-. left. exact L.
    + assert (Hm0 : maxIncrement (this w) <> 0) by lia.
      rewrite (_generate_sequential w Hf Hm0) in Hfire.
      injection Hfire as <- <-. left. split; reflexivity.
  - unfold fire in Hfire. cbn [world_of suspended] in Hfire.
    destruct (existsb (awaited_eqb a) susp && ready a w); [|discriminate].
    destruct a as [p|time]; cbn [resume] in Hfire.
    + pose proof (ledger_locked w Hf) as L.
      destruct (_generateAsync_locked w) as [r1 w1'].
      injection Hfire as <- <-. left. exact L.
    + pose proof (ledger_slept w Hf) as L.
      destruct (_generateAsync_slept w) as [r1 w1'].
      injection Hfire as <- <-. left. exact L.
Qed.

Lemma run_ledger (rev : revision) (o : Options.t) (now0 : Z)
    (c0 : Catflake) (es : list event) :
  constructor rev o now0 = Ok c0 ->
  forall s : system,
    Inv c0 s ->
    ledger (world_of s) = seq 0 (promises (world_of s)) ->
    ledger (world_of (snd (run es s)))
    = seq 0 (promises (world_of (snd (run es s)))).
Proof.
  intros Hc. induction es as [|e es IH]; intros s HI HL; [exact HL|].
  cbn [run]. destruct (fire e s) as [[r s']|] eqn:E.
  - destruct (fire_Inv rev o now0 c0 Hc e s r s' HI E) as [HI' _].
    assert (HL' : ledger (world_of s') = seq 0 (promises (world_of s'))).
    { destruct (fire_ledger rev o now0 c0 e s r s' Hc (proj1 HI) E)
        as [[-> ->]|[-> ->]]; [exact HL|].
      rewrite HL, seq_S. reflexivity. }
    specialize (IH s' HI' HL').
    destruct (run es s') as [rs s'']. exact IH.
  - apply IH; assumption.
Qed.

(** X10: the waiters of the lock are woken in the order in which they
    queued, each once, and none is lost: in every state that a new
    instance reaches, the promises that [_unlock] has resolved, in the
    order of their resolution, followed by the promises still in
    [mutable.locks], in the order of the queue (the list [ledger]), are
    the promises that [_lock] has created, in the order of their
    creation. *)
Theorem waiters_woken_in_order (rev : revision) (o : Options.t) (now0 : Z)
    (c : Catflake) (clk : nat -> Z) (es : list event) :
  constructor rev o now0 = Ok c ->
  let w := world_of (snd (run es (boot c clk))) in
  ledger w = seq 0 (promises w).
Proof.
  intros Hc. cbv zeta.
  apply (run_ledger rev o now0 c es Hc (boot c clk)
           (Inv_boot rev o now0 c clk Hc)).
  apply constructor_Ok in Hc. destruct Hc as (_ & w & p & _ & _ & ->).
  reflexivity.
Qed.

Lemma waiters_woken_in_order_witness :
  let w := world_of
             (snd (run [Call; Call; Call; Call; Call; Call; Call;
                        Resume (AwaitSleep 2); Resume (AwaitLock 0%nat)]
                       (boot sample_concurrent (fun _ => 1514790000000)))) in
  ledger w = seq 0 (promises w)
  /\ resolved w = [1%nat; 0%nat]
  /\ promises w = 2%nat.
Proof.
  split; [|split; vm_compute; reflexivity].
  exact (waiters_woken_in_order RevB sample_options_concurrent 1514790000000
           sample_concurrent (fun _ => 1514790000000)
           [Call; Call; Call; Call; Call; Call; Call;
            Resume (AwaitSleep 2); Resume (AwaitLock 0%nat)] eq_refl).
Defined.

(** ** The ids of the constructor, end to end *)

(** both listings leave an id below the divisor of the first as it is *)
Lemma conform_in_range (rev : revision) (x : Z) (bits : N) :
  0 <= x < getBits bits ->
  conform rev (Int x) bits = Int x.
Proof.
  intros Hx. unfold getBits in Hx. unfold conform, js_rem, getBits.
  destruct rev.
  - destruct (pow2 bits - 1 =? 0) eqn:E; [apply Z.eqb_eq in E; lia|].
    rewrite Z.rem_small by lia. reflexivity.
  - destruct (pow2 bits =? 0) eqn:E; [apply Z.eqb_eq in E; lia|].
    rewrite Z.rem_small by lia. reflexivity.
Qed.

(** X11: when the bit widths add up to 22 and the worker id and the
    process id supplied are integers from 0 to 2^bits - 2 of their widths,
    the constructor of either listing returns an instance that stores the
    options as supplied, frozen, with the ids unchanged, the ids shifted
    to their fields, the bound 2^incrementBits, the increment -1 and the
    time of construction. *)
Theorem ids_in_range_stored (rev : revision) (o : Options.t) (now : Z)
    (wid pid : Z) :
  (Options.incrementBits o + Options.processBits o + Options.workerBits o
   = 22)%N ->
  Options.workerId o = Int wid ->
  Options.processId o = Int pid ->
  0 <= wid < getBits (Options.workerBits o) ->
  0 <= pid < getBits (Options.processBits o) ->
  constructor rev o now
  = Ok (mkCatflake
          (freeze o)
          (Mutable.mk (-1) now [] false [] false)
          (pow2 (Options.incrementBits o))
          (wid * pow2 (Options.incrementBits o + Options.processBits o))
          (pid * pow2 (Options.incrementBits o))
          [] true).
Proof.
  destruct o as [e ib pb wb p w a s x f].
  cbn [Options.incrementBits Options.processBits Options.workerBits
       Options.processId Options.workerId].
  intros Hsum -> -> Hw Hp. unfold constructor.
  cbn [Options.incrementBits Options.processBits Options.workerBits
       Options.processId Options.workerId Options.set_processId
       Options.set_workerId].
  rewrite (proj2 (N.eqb_eq _ _) Hsum). cbn [negb].
  rewrite (conform_in_range rev wid wb Hw), (conform_in_range rev pid pb Hp).
  cbn [BigInt.of_number result_bind]. rewrite !shiftLeft_mul.
  reflexivity.
Qed.

Lemma ids_in_range_stored_witness :
  constructor RevA sample_options_sequential 1514790000000
  = Ok sample_sequential
  /\ constructor RevB sample_options_sequential 1514790000000
     = Ok sample_sequential.
Proof.
  split.
  - apply (ids_in_range_stored RevA sample_options_sequential
             1514790000000 5 3); vm_compute; intuition congruence.
  - apply (ids_in_range_stored RevB sample_options_sequential
             1514790000000 5 3); vm_compute; intuition congruence.
Defined.

(** X12: a width of 0 bits for the worker id or for the process id, the
    widths adding up to 22.  In the first listing the id is reduced by
    [% getBits(0)], that is [% 0], which is [NaN] for every id, and the
    constructor throws on [BigInt(NaN)].  In the second listing the id is
    reduced by [% 1], and the constructor stores the id 0. *)
Theorem zero_width_ids (o : Options.t) (now : Z) :
  (Options.incrementBits o + Options.processBits o + Options.workerBits o
   = 22)%N ->
  Options.workerBits o = 0%N \/ Options.processBits o = 0%N ->
  constructor RevA o now = Throw InvalidInteger
  /\ exists c,
       constructor RevB o now = Ok c
       /\ (Options.workerBits o = 0%N ->
           Options.workerId (options c) = Int 0)
       /\ (Options.processBits o = 0%N ->
           Options.processId (options c) = Int 0).
Proof.
  destruct o as [e ib pb wb p w a s x f].
  cbn [Options.incrementBits Options.processBits Options.workerBits].
  intros Hsum Hz. unfold constructor.
  cbn [Options.incrementBits Options.processBits Options.workerBits
       Options.processId Options.workerId Options.set_processId
       Options.set_workerId].
  rewrite (proj2 (N.eqb_eq _ _) Hsum). cbn [negb].
  split.
  - assert (Hnan : forall id, conform RevA id 0 = NaN)
      by (intros [z|]; reflexivity).
    destruct Hz as [-> | ->].
    + rewrite Hnan. reflexivity.
    + rewrite Hnan. destruct (conform RevA w wb); reflexivity.
  - destruct (conform_RevB_Int w wb) as (zw & Ew).
    destruct (conform_RevB_Int p pb) as (zp & Ep).
    rewrite Ew, Ep. cbn [BigInt.of_number result_bind].
    eexists. split; [reflexivity|].
    cbn [options freeze Catflake_Freezable Options_Freezable set_frozen
         Options.set_frozen Options.workerId Options.processId].
    assert (Hone : forall id z, conform RevB id 0 = Int z -> z = 0).
    { intros [y|] z; unfold conform, js_rem; cbn.
      - rewrite Z.rem_1_r. congruence.
      - congruence. }
    split; intros ->.
    + pose proof (Hone w zw Ew). subst zw. reflexivity.
    + pose proof (Hone p zp Ep). subst zp. reflexivity.
Qed.

Lemma zero_width_ids_witness :
  let o := Options.mk 1420070400000 12 10 0 (Int 3) (Int 0) false true []
                      false in
  constructor RevA o 1514790000000 = Throw InvalidInteger
  /\ exists c,
       constructor RevB o 1514790000000 = Ok c
       /\ (Options.workerBits o = 0%N ->
           Options.workerId (options c) = Int 0)
       /\ (Options.processBits o = 0%N ->
           Options.processId (options c) = Int 0).
Proof.
  exact (zero_width_ids
           (Options.mk 1420070400000 12 10 0 (Int 3) (Int 0) false true []
                       false)
           1514790000000 eq_refl (or_introl eq_refl)).
Defined.

Lemma roundtrip_ids_witness :
  Forall (fun r =>
            match r with
            | Ok (Done flake) =>
                exists d,
                  deconstruct sample_concurrent flake = Ok d
                  /\ Deconstructed.workerId d = 5
                  /\ Deconstructed.processId d = 3
            | Ok (Await _) => True
            | Throw _ => False
            end)
         (fst (run [Call; Call; Call; Call; Call; Call;
                    Resume (AwaitSleep 2); Resume (AwaitLock 0%nat)]
                   (boot sample_concurrent (fun _ => 1514790000000)))).
Proof.
  apply (roundtrip_ids RevB sample_options_concurrent 1514790000000
           sample_concurrent (fun _ => 1514790000000)
           [Call; Call; Call; Call; Call; Call;
            Resume (AwaitSleep 2); Resume (AwaitLock 0%nat)] 5 3);
    solve [reflexivity | lia].
Defined.

(** X14: in sequential mode, for stored ids that are not negative,
    [deconstruct] takes the snowflake of call number k apart into reading
    number k of the clock, the stored ids and the increment
    k mod 2^incrementBits: the date and the count of the call are read
    back from the snowflake, whatever the clock reads, also a date before
    the epoch. *)
Theorem sequential_roundtrip (rev : revision) (o : Options.t) (now0 : Z)
    (c : Catflake) (clk : nat -> Z) (n : nat) (wid pid : Z) :
  constructor rev o now0 = Ok c ->
  Options.async (options c) = false ->
  Options.workerId (options c) = Int wid ->
  Options.processId (options c) = Int pid ->
  0 <= wid -> 0 <= pid ->
  map (fun r =>
         match r with
         | Ok (Done flake) => deconstruct c flake
         | Ok (Await _) => Throw TypeError
         | Throw e => Throw e
         end)
      (fst (run (repeat Call n) (boot c clk)))
  = map (fun k =>
           Ok (Deconstructed.mk
                 (clk k) wid pid
                 (Z.of_nat k mod pow2 (Options.incrementBits (options c)))))
        (seq 0 n).
Proof.
  intros Hc Ha Hw Hp Hw0 Hp0.
  rewrite (sequential_closed_form rev o now0 c clk n Hc Ha), map_map.
  apply map_ext. intros k.
  apply (deconstruct_pack rev o now0 c wid pid _ _ Hc Hw Hp Hw0 Hp0).
  rewrite (constructor_maxIncrement _ _ _ _ Hc).
  apply Z.mod_pos_bound, pow2_pos.
Qed.

Lemma sequential_roundtrip_witness :
  map (fun r =>
         match r with
         | Ok (Done flake) => deconstruct sample_sequential flake
         | Ok (Await _) => Throw TypeError
         | Throw e => Throw e
         end)
      (fst (run (repeat Call 6)
                (boot sample_sequential (fun k => 7 * Z.of_nat k))))
  = map (fun k =>
           Ok (Deconstructed.mk
                 (7 * Z.of_nat k) 5 3
                 (Z.of_nat k
                  mod pow2 (Options.incrementBits
                              (options sample_sequential)))))
        (seq 0 6).
Proof.
  apply (sequential_roundtrip RevB sample_options_sequential 1514790000000
           sample_sequential (fun k => 7 * Z.of_nat k) 6 5 3);
    solve [reflexivity | lia].
Defined.
